(** * gperf2flamegraph: a shallow embedding of the profile converter

    The development follows the two Python modules of the repository:
    [utils.py] (symbol clean-up, the symbol resolver) and
    [gperf2flamegraph.py] (the binary profile parser and the stack folder).

    Conventions.
    - A Python [int] is a [Z]; nothing wraps around.
    - A Python [str] is a list of Unicode code points ([list Z]); a
      [bytes] object is a [list byte].
    - A raised exception is the [Raise] branch of [result]; the model
      keeps the exception class, not its message, except for the two
      [assert] messages of the parser.
    - A [dict] is a [gmap], a [set] a [gset]. *)

From Stdlib Require Import ZArith List Strings.Byte Ascii String Sorted Permutation.
From stdpp Require Import gmap list fin_maps.
From Equations Require Import Equations.
From Stdlib Require DecimalString.
Import ListNotations.

Open Scope Z_scope.

(** ** Python values *)

Definition char := Z.
Definition str := list char.

(** A literal of the source, written as a Rocq string of ASCII characters. *)
Definition py (s : string) : str :=
  List.map (fun a => Z.of_N (N_of_ascii a)) (list_ascii_of_string s).

(** Exceptions the modelled code can raise. *)
Inductive exn : Type :=
| StructError                      (* struct.error: buffer too short *)
| AssertionError (msg : string)    (* a failed [assert] *)
| UnicodeDecodeError               (* bytes.decode() on invalid UTF-8 *)
| IndexError                       (* list index out of range *)
| ValueError                       (* int(s, 16) on a non-number *)
| CalledProcessError               (* a subprocess run with check=True failed *)
| OSError                          (* a file that cannot be opened *)
| OverflowError                    (* an int beyond sys.maxsize used as a size *)
| MemoryError.                     (* an allocation the host cannot serve *)

Inductive result (A : Type) : Type :=
| Ok (a : A)
| Raise (e : exn).
Arguments Ok {A} a.
Arguments Raise {A} e.

#[global] Instance result_ret : MRet result := fun A a => Ok a.
#[global] Instance result_bind : MBind result := fun A B f m =>
  match m with
  | Ok a => f a
  | Raise e => Raise e
  end.

(** The spec's fatal [FormatError]: a [struct.error] on a short read or a
    failed [assert] of the parser. *)
Definition is_format_error (e : exn) : bool :=
  match e with
  | StructError | AssertionError _ => true
  | _ => false
  end.

(** ** Python [str] methods used by the source *)

Section StrMethods.

(** [str.isspace] on one code point (the set used by [strip()] and
    [split()] without arguments). *)
Definition is_space (c : char) : bool :=
  ((0x09 <=? c) && (c <=? 0x0D)) || ((0x1C <=? c) && (c <=? 0x20))
  || (c =? 0x85) || (c =? 0xA0) || (c =? 0x1680)
  || ((0x2000 <=? c) && (c <=? 0x200A))
  || (c =? 0x2028) || (c =? 0x2029) || (c =? 0x202F) || (c =? 0x205F)
  || (c =? 0x3000).

(** Line boundaries of [str.splitlines]. *)
Definition is_linebreak (c : char) : bool :=
  ((0x0A <=? c) && (c <=? 0x0D)) || ((0x1C <=? c) && (c <=? 0x1E))
  || (c =? 0x85) || (c =? 0x2028) || (c =? 0x2029).

Fixpoint lstrip_by (p : char -> bool) (s : str) : str :=
  match s with
  | c :: s' => if p c then lstrip_by p s' else s
  | [] => []
  end.

Definition rstrip_by (p : char -> bool) (s : str) : str :=
  rev (lstrip_by p (rev s)).

Definition strip_by (p : char -> bool) (s : str) : str :=
  rstrip_by p (lstrip_by p s).

(** [s.strip()] *)
Definition strip (s : str) : str := strip_by is_space s.

(** [s.strip(chars)] *)
Definition strip_chars (chars : str) (s : str) : str :=
  strip_by (fun c => existsb (Z.eqb c) chars) s.

(** [s.startswith(prefix)] *)
Fixpoint startswith (prefix s : str) : bool :=
  match prefix, s with
  | [], _ => true
  | p :: prefix', c :: s' => (p =? c) && startswith prefix' s'
  | _ :: _, [] => false
  end.

(** [c in s] for a one-character [c] *)
Definition contains_char (c : char) (s : str) : bool := existsb (Z.eqb c) s.

(** [s.split()]: maximal runs of non-whitespace. [cur] is the run being
    read, in reverse. *)
Fixpoint split_ws_aux (cur : str) (s : str) : list str :=
  match s with
  | [] => match cur with [] => [] | _ => [rev cur] end
  | c :: s' =>
      if is_space c
      then match cur with
           | [] => split_ws_aux [] s'
           | _ => rev cur :: split_ws_aux [] s'
           end
      else split_ws_aux (c :: cur) s'
  end.

Definition split_ws (s : str) : list str := split_ws_aux [] s.

(** [s.split(sep, 1)] for a one-character separator. *)
Fixpoint split_once_aux (sep : char) (cur : str) (s : str) : list str :=
  match s with
  | [] => [rev cur]
  | c :: s' => if c =? sep then [rev cur; s'] else split_once_aux sep (c :: cur) s'
  end.

Definition split_once (sep : char) (s : str) : list str := split_once_aux sep [] s.

(** [s.splitlines()]: a line ends at a line boundary; CR LF is one
    boundary; no empty last line. *)
Fixpoint splitlines_aux (cur : str) (s : str) : list str :=
  match s with
  | [] => match cur with [] => [] | _ => [rev cur] end
  | c :: s' =>
      if is_linebreak c
      then rev cur ::
           match s' with
           | c' :: s'' =>
               if (c =? 0x0D) && (c' =? 0x0A) then splitlines_aux [] s''
               else splitlines_aux [] s'
           | [] => []
           end
      else splitlines_aux (c :: cur) s'
  end.

Definition splitlines (s : str) : list str := splitlines_aux [] s.

(** [sep.join(parts)] *)
Fixpoint join (sep : str) (parts : list str) : str :=
  match parts with
  | [] => []
  | [p] => p
  | p :: ps => p ++ sep ++ join sep ps
  end.

End StrMethods.

(** ** utils.py: symbol clean-up *)

(** The loop state of [_remove_matching_brackets]: the text kept so far
    and the bracket depth. *)
Record rmb_state := { rmb_result : str; rmb_depth : Z }.

(** One iteration of [for c in s].  On [begin] the source evaluates the
    comparison [depth == 1] and discards it, so the depth is unchanged. *)
Definition rmb_step (begin end_ : char) (st : rmb_state) (c : char) : rmb_state :=
  if c =? begin then st
  else if c =? end_ then {| rmb_result := rmb_result st; rmb_depth := rmb_depth st - 1 |}
  else if rmb_depth st =? 0 then {| rmb_result := rmb_result st ++ [c]; rmb_depth := rmb_depth st |}
  else st.

Definition _remove_matching_brackets (s : str) (begin end_ : char) : str :=
  rmb_result (fold_left (rmb_step begin end_) s {| rmb_result := []; rmb_depth := 0 |}).

Definition _cleanup_symbol (s : str) : str :=
  let s := _remove_matching_brackets s 40 41 in     (* '(' ')' *)
  let s := _remove_matching_brackets s 91 93 in     (* '[' ']' *)
  let s := _remove_matching_brackets s 60 62 in     (* '<' '>' *)
  strip_chars (py ":") s.


(** ** gperf2flamegraph.py: the profile parser *)

Record Stacktrace := {
  sample_count : Z;
  pcs : list Z;
  symbols : option (list str)
}.

Record ProfilerResult := {
  sampling_period_in_us : Z;
  proc_mapped_objects : str;
  stacktraces : list Stacktrace
}.

Definition _UNKNOWN_SYMBOL : str := py "???".

(** The format character [Q] is read in native byte order; the order of
    the host is a parameter of the parser. *)
Inductive byteorder := LittleEndian | BigEndian.

Definition byte_val (b : byte) : Z := Z.of_N (Byte.to_N b).

Fixpoint le_uint (bs : list byte) : Z :=
  match bs with
  | [] => 0
  | b :: bs' => byte_val b + 256 * le_uint bs'
  end.

Definition unpack_Q (order : byteorder) (bs : list byte) : Z :=
  match order with
  | LittleEndian => le_uint bs
  | BigEndian => le_uint (rev bs)
  end.

(** [k] consecutive 64-bit slots of a buffer. *)
Fixpoint unpack_Qs (order : byteorder) (k : nat) (buf : list byte) : list Z :=
  match k with
  | O => []
  | S k' => unpack_Q order (firstn 8 buf) :: unpack_Qs order k' (skipn 8 buf)
  end.

(** [sys.maxsize] of a 64-bit interpreter. *)
Definition sys_maxsize : Z := 2 ^ 63 - 1.

(** What a [bytes] object takes besides its content, in a 64-bit CPython:
    [f.read(k)] raises [OverflowError] for [k > sys.maxsize - 33]. *)
Definition bytes_overhead : Z := 33.

(** The exception of [struct.unpack('Q' * n, f.read(8 * n))] when the
    file holds fewer than [8 * n] bytes, in the order of evaluation.
    ['Q' * n] raises [OverflowError] for [n > sys.maxsize], before
    anything is allocated, and [MemoryError] when the string cannot be
    allocated.  [f.read(8 * n)] raises [OverflowError] for a size that is
    no size of a [bytes] object, and [MemoryError] when its buffer of
    [8 * n] bytes cannot be allocated.  [struct.unpack] raises
    [MemoryError] when it cannot allocate for the [n] codes of the format,
    and [struct.error] for the buffer that is too short.
    [fits n] is the answer of the host's memory: whether every allocation
    that the evaluation comes to for [n] succeeds. *)
Definition short_read_error (fits : Z -> bool) (n : Z) : exn :=
  if sys_maxsize <? n then OverflowError
  else if negb (fits n) then MemoryError
  else if sys_maxsize - bytes_overhead <? 8 * n then OverflowError
  else StructError.

(** [f.read(n)] on the open file, whose state is the bytes not yet read:
    at most [n] bytes are returned and consumed. *)
Definition file_read (n : Z) (f : list byte) : list byte * list byte :=
  (firstn (Z.to_nat n) f, skipn (Z.to_nat n) f).

(** [bytes.decode()]: strict UTF-8. *)
Definition is_cont (b : byte) : bool := (0x80 <=? byte_val b) && (byte_val b <=? 0xBF).
Definition cont_bits (b : byte) : Z := byte_val b - 0x80.

Fixpoint utf8_decode (bs : list byte) : result str :=
  match bs with
  | [] => Ok []
  | b0 :: t0 =>
      let c0 := byte_val b0 in
      if c0 <? 0x80 then
        s ← utf8_decode t0; Ok (c0 :: s)
      else if (0xC2 <=? c0) && (c0 <=? 0xDF) then
        match t0 with
        | b1 :: t1 =>
            if is_cont b1
            then s ← utf8_decode t1; Ok (((c0 - 0xC0) * 64 + cont_bits b1) :: s)
            else Raise UnicodeDecodeError
        | _ => Raise UnicodeDecodeError
        end
      else if (0xE0 <=? c0) && (c0 <=? 0xEF) then
        match t0 with
        | b1 :: b2 :: t2 =>
            let lo := if c0 =? 0xE0 then 0xA0 else 0x80 in
            let hi := if c0 =? 0xED then 0x9F else 0xBF in
            if (lo <=? byte_val b1) && (byte_val b1 <=? hi) && is_cont b2
            then s ← utf8_decode t2;
                 Ok (((c0 - 0xE0) * 4096 + cont_bits b1 * 64 + cont_bits b2) :: s)
            else Raise UnicodeDecodeError
        | _ => Raise UnicodeDecodeError
        end
      else if (0xF0 <=? c0) && (c0 <=? 0xF4) then
        match t0 with
        | b1 :: b2 :: b3 :: t3 =>
            let lo := if c0 =? 0xF0 then 0x90 else 0x80 in
            let hi := if c0 =? 0xF4 then 0x8F else 0xBF in
            if (lo <=? byte_val b1) && (byte_val b1 <=? hi) && is_cont b2 && is_cont b3
            then s ← utf8_decode t3;
                 Ok (((c0 - 0xF0) * 262144 + cont_bits b1 * 4096
                      + cont_bits b2 * 64 + cont_bits b3) :: s)
            else Raise UnicodeDecodeError
        | _ => Raise UnicodeDecodeError
        end
      else Raise UnicodeDecodeError
  end.

(** A host that serves the reads of fewer than [2 ^ 32] slots. *)
Definition roomy (n : Z) : bool := negb (2 ^ 32 <=? n).

Definition inspect {A} (a : A) : {b : A | a = b} := exist _ a eq_refl.

Section Parser.

Variable order : byteorder.

(** What the memory of the host decides: whether the interpreter can
    allocate what a read of [n] slots needs (the format string of [n]
    characters, the buffer of [8 * n] bytes, the [n] codes of the compiled
    format). *)
Variable fits : Z -> bool.

(** [read_slots(n)] of the source: [struct.unpack('Q' * n, f.read(8 * n))],
    for [n >= 0].  When the file holds the [8 * n] bytes, the [n] words
    are returned: a file is shorter than [2 ^ 63] bytes, and the host is
    taken to have the memory for what its file holds.  When it does not,
    the expression raises, with the class given by [short_read_error]. *)
Definition read_slots (n : Z) (f : list byte) : result (list Z * list byte) :=
  let '(buf, f) := file_read (8 * n) f in
  if Z.of_nat (length buf) =? 8 * n
  then Ok (unpack_Qs order (Z.to_nat n) buf, f)
  else Raise (short_read_error fits n).

(** One iteration of the [while True] loop: [None] is the [break] at the
    trailer, [Some st] the stack trace appended to [result.stacktraces]. *)
Definition read_record (f : list byte) : result (option Stacktrace * list byte) :=
  '(ws, f) ← read_slots 2 f;
  match ws with
  | [sample_count; num_pcs] =>
      '(pcs, f) ← read_slots num_pcs f;
      if sample_count =? 0 then
        if num_pcs =? 1 then Ok (None, f)
        else Raise (AssertionError "Invalid trailer")
      else
        Ok (Some {| sample_count := sample_count; pcs := pcs; symbols := None |}, f)
  | _ => Raise ValueError
  end.

Equations? read_records (f : list byte) (stacktraces : list Stacktrace)
  : result (list Stacktrace * list byte) by wf (length f) lt :=
read_records f stacktraces with inspect (read_record f) := {
  | exist _ (Raise e) _ := Raise e
  | exist _ (Ok (None, f')) _ := Ok (stacktraces, f')
  | exist _ (Ok (Some st, f')) H := read_records f' (stacktraces ++ [st]) }.
Proof.
  (* every record that is not the trailer consumes at least 16 bytes *)
  clear read_records. revert H.
  unfold read_record, read_slots, file_read.
  destruct (Z.of_nat (length (firstn (Z.to_nat (8 * 2)) f)) =? 8 * 2) eqn:E; [|discriminate].
  apply Z.eqb_eq in E. rewrite length_firstn in E.
  intros H. cbn [mbind result_bind] in H.
  destruct (unpack_Qs order (Z.to_nat 2) (take (Z.to_nat (8 * 2)) f)) as [|w [|n [|? ?]]];
    try discriminate.
  destruct (Z.of_nat (length (firstn (Z.to_nat (8 * n)) (skipn (Z.to_nat (8 * 2)) f))) =? 8 * n);
    [|discriminate].
  cbn [mbind result_bind] in H.
  destruct (w =? 0); [destruct (n =? 1); discriminate|].
  injection H as _ <-. rewrite !length_skipn. lia.
Qed.

Definition _parse_profiler_result (f : list byte) : result ProfilerResult :=
  '(ws, f) ← read_slots 5 f;
  match ws with
  | [header_count; header_slots; version; sampling_period_in_us; padding] =>
      if (header_count =? 0) && (header_slots =? 3) && (version =? 0) && (padding =? 0)
      then
        '(stacktraces, f) ← read_records f [];
        text ← utf8_decode f;                     (* f.read().decode() *)
        Ok {| sampling_period_in_us := sampling_period_in_us;
              proc_mapped_objects := text;
              stacktraces := stacktraces |}
      else Raise (AssertionError "Invalid header, this profiler result is not valid")
  | _ => Raise ValueError
  end.

End Parser.


(** ** utils.py: symbols and mapped objects *)

Definition len {A} (l : list A) : Z := Z.of_nat (length l).

(** [class Symbol].  The field [_cleaned_symbol] only caches the value of
    [_cleanup_symbol(self.symbol)], so [simplified_symbol] is that value. *)
Record Symbol := { address : Z; symbol : str }.

Definition simplified_symbol (s : Symbol) : str := _cleanup_symbol (symbol s).

(** [sorted(result, key=lambda x: x.address)]: the stable sort by address. *)
Fixpoint insert_by_address (s : Symbol) (l : list Symbol) : list Symbol :=
  match l with
  | [] => [s]
  | t :: l' => if address s <=? address t then s :: l else t :: insert_by_address s l'
  end.

Definition sorted_by_address (l : list Symbol) : list Symbol :=
  foldr insert_by_address [] l.

(** [bisect.bisect_right(a, x)]: the loop of the standard library, with
    [lo = 0] and [hi = len(a)] at the start.  [a[mid]] is always in range
    there. *)
Equations? bisect_loop (a : list Z) (x : Z) (lo hi : Z) : Z by wf (Z.to_nat (hi - lo)) lt :=
bisect_loop a x lo hi with inspect (lo <? hi) := {
  | exist _ true _ :=
      let mid := (lo + hi) `div` 2 in
      if x <? nth (Z.to_nat mid) a 0
      then bisect_loop a x lo mid
      else bisect_loop a x (mid + 1) hi
  | exist _ false _ := lo }.
Proof.
  all: match goal with H : (_ <? _) = true |- _ => apply Z.ltb_lt in H end.
  all: pose proof (Z.div_mod (lo + hi) 2 ltac:(lia));
       pose proof (Z.mod_pos_bound (lo + hi) 2 ltac:(lia)); lia.
Qed.

Definition bisect_right (a : list Z) (x : Z) : Z := bisect_loop a x 0 (len a).

(** What the source takes from its host: [pathlib], the file system, the
    two inspection tools it runs, and [int(s, 16)]. *)
Class Host := {
  Path : Type;
  mkPath : str -> Path;                     (* Path(s) *)
  path_name : Path -> str;                  (* p.name *)
  path_exists : Path -> bool;               (* p.exists() *)
  access_R_OK : Path -> bool;               (* os.access(p.absolute(), os.R_OK) *)
  run_nm : bool -> Path -> result str;      (* stdout of nm, with -D when the flag is set *)
  readelf_text : Path -> result (option (str * str));
                                            (* readelf -W -S, then the two groups of the
                                               regular expression, if it matches *)
  int16 : str -> result Z;                  (* int(s, 16) *)
  open_rb : Path -> result (list byte);     (* the bytes read from p.open('rb') *)
  native_order : byteorder;                 (* byte order of struct's native mode *)
  slots_fit : Z -> bool                     (* whether a read of n slots can be allocated *)
}.

(** [s.split(None, 2)]: at most two splits at whitespace; the rest of the
    string, without its leading whitespace, is the last field. *)
Fixpoint take_field (s : str) : str * str :=
  match s with
  | c :: s' =>
      if is_space c then ([], s)
      else let '(w, r) := take_field s' in (c :: w, r)
  | [] => ([], [])
  end.

Fixpoint split_ws_max (maxsplit : nat) (s : str) : list str :=
  match lstrip_by is_space s with
  | [] => []
  | r =>
      match maxsplit with
      | O => [r]
      | S m => let '(w, rest) := take_field r in w :: split_ws_max m rest
      end
  end.

(** [l[i]] for a constant index [i >= 0]. *)
Definition index {A} (l : list A) (i : nat) : result A :=
  match l !! i with
  | Some x => Ok x
  | None => Raise IndexError
  end.

(** A [for] loop whose body may raise; [None] from the body is [continue],
    [Some x] is [acc.append(x)]. *)
Fixpoint for_append {A B} (body : A -> result (option B)) (l : list A) (acc : list B)
  : result (list B) :=
  match l with
  | [] => Ok acc
  | a :: l' =>
      r ← body a;
      for_append body l' (match r with Some b => acc ++ [b] | None => acc end)
  end.

Section Utils.

Context `{Host}.

Record MappedObject := {
  start_address : Z;
  end_address : Z;
  offset : Z;
  obj_path : Path;
  is_executable : bool;
  all_symbols_sorted : list Symbol;
  all_addrs_sorted : list Z;
  obj_start_vma : Z
}.

Record SymbolResolver := { _objects : list MappedObject }.

Definition _find_object_start_vma_before_linked (filepath : Path) : result Z :=
  m ← readelf_text filepath;
  match m with
  | Some (g1, g2) => a ← int16 g1; b ← int16 g2; Ok (a - b)
  | None => Ok 0
  end.

(** One line of the nm output. *)
Definition nm_line (line : str) : result (option Symbol) :=
  let fields := split_ws_max 2 (rstrip_by is_space line) in
  symbol ← index fields 2;
  f0 ← index fields 0;
  a ← int16 f0;
  Ok (Some {| address := a; symbol := symbol |}).

Definition _find_object_all_symbols_sorted (filepath : Path) : result (list Symbol) :=
  out ← run_nm false filepath;
  proc_output ←
    (match strip out with
     | _ :: _ => Ok out
     | [] =>
         out ← run_nm true filepath;            (* fallback to dynamic symbols *)
         match strip out with
         | _ :: _ => Ok out
         | [] => Ok []
         end
     end);
  result ← for_append nm_line (splitlines proc_output) [];
  Ok (sorted_by_address result).

(** The body of the loop of [SymbolResolver.__init__] for one line. *)
Definition init_line (executable : Path) (executable_only : bool) (line : str)
  : result (option MappedObject) :=
  if startswith (py "build=") line then Ok None
  else
    let fields := split_ws (strip line) in
    f0 ← index fields 0;
    let addr_fileds := split_once 45 f0 in     (* '-' *)
    match fields with
    | [_; perms; off; _; _; path] =>
        if negb (contains_char 120 perms) then Ok None     (* 'x' *)
        else
          let obj_path := mkPath path in
          let is_executable := bool_decide (path_name obj_path = path_name executable) in
          let obj_path := if is_executable then executable else obj_path in
          if executable_only && negb is_executable then Ok None
          else if negb (path_exists obj_path) || negb (access_R_OK obj_path) then Ok None
          else
            all_symbols_sorted ← _find_object_all_symbols_sorted obj_path;
            a0 ← index addr_fileds 0;
            start_address ← int16 a0;
            a1 ← index addr_fileds 1;
            end_address ← int16 a1;
            offset ← int16 off;
            obj_start_vma ← _find_object_start_vma_before_linked obj_path;
            Ok (Some {| start_address := start_address;
                        end_address := end_address;
                        offset := offset;
                        obj_path := obj_path;
                        is_executable := is_executable;
                        all_symbols_sorted := all_symbols_sorted;
                        all_addrs_sorted := List.map address all_symbols_sorted;
                        obj_start_vma := obj_start_vma |})
    | _ => Ok None                              (* len(fields) != 6 *)
    end.

(** [SymbolResolver.__init__] *)
Definition SymbolResolver_init (executable : Path) (proc_mapped_objects : str)
    (executable_only : bool) : result SymbolResolver :=
  objs ← for_append (init_line executable executable_only)
           (splitlines (strip proc_mapped_objects)) [];
  Ok {| _objects := objs |}.

(** The body of the inner loop of [resolve_symbols_batch] for one [pc]. *)
Definition resolve_pc (simplify_symbol annotate_libname : bool) (obj : MappedObject)
    (result : gmap Z str) (pc : Z) : gmap Z str :=
  if negb ((start_address obj <=? pc) && (pc <? end_address obj)) then result
  else
    let addr_before_linked := pc - start_address obj + offset obj + obj_start_vma obj in
    let idx := bisect_right (all_addrs_sorted obj) addr_before_linked - 1 in
    if (0 <=? idx) && (idx <? len (all_symbols_sorted obj)) then
      match all_symbols_sorted obj !! Z.to_nat idx with
      | Some sym =>
          let sym_str := if simplify_symbol then simplified_symbol sym else symbol sym in
          let sym_str :=
            if annotate_libname && negb (is_executable obj)
            then sym_str ++ py " [" ++ path_name (obj_path obj) ++ py "]"
            else sym_str in
          <[pc := sym_str]> result
      | None => result
      end
    else result.

(** [resolve_symbols_batch]; the set [pcs] is visited in the order of
    [elements pcs]. *)
Definition resolve_symbols_batch (self : SymbolResolver) (pcs : gset Z)
    (simplify_symbol annotate_libname : bool) : gmap Z str :=
  fold_left
    (fun result obj =>
       fold_left (resolve_pc simplify_symbol annotate_libname obj) (elements pcs) result)
    (_objects self) ∅.

End Utils.

(** ** gperf2flamegraph.py: resolving and folding the stacks *)

(** The condition of the trimming loop:
    [len(symbols) > 1 and symbols[-1] == _UNKNOWN_SYMBOL]. *)
Definition trailing_unknown (symbols : list str) : bool :=
  (1 <? len symbols) && bool_decide (List.last symbols [] = _UNKNOWN_SYMBOL).

(** [while ...: symbols.pop()] *)
Equations? pop_unknown (symbols : list str) : list str by wf (length symbols) lt :=
pop_unknown symbols with inspect (trailing_unknown symbols) := {
  | exist _ true _ := pop_unknown (removelast symbols)
  | exist _ false _ := symbols }.
Proof.
  match goal with
  | e : trailing_unknown ?l = true |- _ =>
      unfold trailing_unknown, len in e; apply andb_true_iff, proj1, Z.ltb_lt in e;
      rewrite (removelast_firstn_len l), length_firstn
  end.
  lia.
Qed.

(** The key under which a stack with resolved symbols [syms] (leaf
    first, not empty) is counted. *)
Definition fold_key (syms : list str) : str :=
  let symbols := rev syms in                 (* stacktrace.symbols[::-1] *)
  let symbols := pop_unknown symbols in
  join (py ";") symbols.

(** The body of the loop that collects the stacks; [stacks] is a
    [defaultdict] with default 0. *)
Definition collect_stack (sampling_period : Z) (to_microsecond : bool)
    (stacks : gmap str Z) (stacktrace : Stacktrace) : gmap str Z :=
  match symbols stacktrace with
  | None | Some [] => stacks                 (* continue *)
  | Some syms =>
      let key := fold_key syms in
      <[key := default 0 (stacks !! key)
               + (if to_microsecond
                  then sample_count stacktrace * sampling_period
                  else sample_count stacktrace)]> stacks
  end.

(** The loop that fills in [stacktrace.symbols]. *)
Definition assign_symbols (pcs_to_symbols : gmap Z str) (stacktrace : Stacktrace) : Stacktrace :=
  {| sample_count := sample_count stacktrace;
     pcs := pcs stacktrace;
     symbols := Some (List.map (fun pc => default _UNKNOWN_SYMBOL (pcs_to_symbols !! pc))
                        (pcs stacktrace)) |}.

Section Flamegraph.

Context `{Host}.

Record Gperf2Flamegraph := {
  symbol_resolver : option SymbolResolver;
  _executable_path : Path;
  _profile_result_path : Path;
  executable_only : bool                     (* _symbol_resolver_kwargs *)
}.

(** [FlamegraphData]: the table the text [_data] is written from, and the
    default arguments of the renderer. *)
Record FlamegraphData := {
  fg_stacks : gmap str Z;
  _default_flamegraph_args : list str
}.

(** Lines 88-117 of [process]: from the parsed profile and the resolver
    to the table of folded stacks. *)
Definition process_stacks (resolver : SymbolResolver) (profiler_result : ProfilerResult)
    (simplify_symbol annotate_libname to_microsecond : bool) : gmap str Z :=
  let all_pcs : gset Z :=
    list_to_set (concat (List.map pcs (stacktraces profiler_result))) in
  let pcs_to_symbols :=
    resolve_symbols_batch resolver all_pcs simplify_symbol annotate_libname in
  let stacktraces := List.map (assign_symbols pcs_to_symbols) (stacktraces profiler_result) in
  fold_left (collect_stack (sampling_period_in_us profiler_result) to_microsecond)
    stacktraces ∅.

(** [Gperf2Flamegraph.process]; the second component is [self] after the
    call. *)
Definition process (self : Gperf2Flamegraph)
    (simplify_symbol annotate_libname to_microsecond : bool)
  : result (FlamegraphData * Gperf2Flamegraph) :=
  f ← open_rb (_profile_result_path self);
  profiler_result ← _parse_profiler_result native_order slots_fit f;
  resolver ←
    (match symbol_resolver self with
     | Some r => Ok r
     | None => SymbolResolver_init (_executable_path self)
                 (proc_mapped_objects profiler_result) (executable_only self)
     end);
  let stacks :=
    process_stacks resolver profiler_result simplify_symbol annotate_libname to_microsecond in
  Ok ({| fg_stacks := stacks;
         _default_flamegraph_args :=
           if to_microsecond then [py "--countname"; py "us"] else [] |},
      {| symbol_resolver := Some resolver;
         _executable_path := _executable_path self;
         _profile_result_path := _profile_result_path self;
         executable_only := executable_only self |}).

End Flamegraph.


(** ** The profile format, writer side

    The layout of section 6 of the specification, used to state what the
    parser does on a stream: 64-bit words in the host's byte order. *)

Definition word (w : Z) : Prop := 0 <= w < 2 ^ 64.

Definition byte_of (n : Z) : byte :=
  match Byte.of_N (Z.to_N n) with
  | Some b => b
  | None => x00
  end.

Fixpoint le_bytes (k : nat) (w : Z) : list byte :=
  match k with
  | O => []
  | S k' => byte_of (w mod 256) :: le_bytes k' (w / 256)
  end.

Definition pack_Q (order : byteorder) (w : Z) : list byte :=
  match order with
  | LittleEndian => le_bytes 8 w
  | BigEndian => rev (le_bytes 8 w)
  end.

(** [struct.pack('Q' * len(ws), *ws)] *)
Definition pack (order : byteorder) (ws : list Z) : list byte :=
  flat_map (pack_Q order) ws.

(** A record of the stream: weight, number of counters, the counters. *)
Definition pack_record (order : byteorder) (st : Stacktrace) : list byte :=
  pack order (sample_count st :: len (pcs st) :: pcs st).

(** A parsed sample, before its symbols are resolved. *)
Definition sample (weight : Z) (counters : list Z) : Stacktrace :=
  {| sample_count := weight; pcs := counters; symbols := None |}.

(** A sample a well-formed stream can carry. *)
Definition sample_ok (st : Stacktrace) : Prop :=
  word (sample_count st) /\ sample_count st <> 0 /\ word (len (pcs st))
  /\ Forall word (pcs st) /\ symbols st = None.


(** ** The resolver, in the words of the specification *)

Section ResolverSpec.

Context `{Host}.

(** Membership test of the specification: [region.start <= pc < region.end]. *)
Definition in_region (obj : MappedObject) (pc : Z) : Prop :=
  start_address obj <= pc < end_address obj.

(** [target = pc - region.start + region.file_offset + region.pre_link_base] *)
Definition translate (obj : MappedObject) (pc : Z) : Z :=
  pc - start_address obj + offset obj + obj_start_vma obj.

(** The rendered name of an entry: raw or simplified, with the name of the
    backing file appended when annotation is requested and the region is
    not the primary executable. *)
Definition render (simplify_symbol annotate_libname : bool) (obj : MappedObject)
    (sym : Symbol) : str :=
  let name := if simplify_symbol then simplified_symbol sym else symbol sym in
  if annotate_libname && negb (is_executable obj)
  then name ++ py " [" ++ path_name (obj_path obj) ++ py "]"
  else name.

(** [sym], at index [i], is the rightmost entry whose address is [<= target]. *)
Definition rightmost_le (syms : list Symbol) (target : Z) (i : nat) (sym : Symbol) : Prop :=
  syms !! i = Some sym /\ address sym <= target
  /\ forall j sym', syms !! j = Some sym' -> (i < j)%nat -> target < address sym'.

(** What [__init__] establishes for every mapped object: the address list
    is the list of the symbols' addresses, in ascending order. *)
Definition object_wf (obj : MappedObject) : Prop :=
  all_addrs_sorted obj = List.map address (all_symbols_sorted obj)
  /\ StronglySorted Z.le (all_addrs_sorted obj).

(** The entry the inner loop body picks for [pc] in [obj], if any. *)
Definition symbol_at (obj : MappedObject) (pc : Z) : option Symbol :=
  if (start_address obj <=? pc) && (pc <? end_address obj) then
    let idx := bisect_right (all_addrs_sorted obj) (translate obj pc) - 1 in
    if (0 <=? idx) && (idx <? len (all_symbols_sorted obj))
    then all_symbols_sorted obj !! Z.to_nat idx
    else None
  else None.

(** The translated address of [pc] precedes the first symbol of the
    region; so it is for a region without symbols. *)
Definition before_first_symbol (obj : MappedObject) (pc : Z) : Prop :=
  match head (all_symbols_sorted obj) with
  | Some sy0 => translate obj pc < address sy0
  | None => True
  end.

(** A region that leaves [pc] unresolved: [pc] lies outside its range, or
    before its first symbol. *)
Definition unresolved_in (obj : MappedObject) (pc : Z) : Prop :=
  ~ in_region obj pc \/ before_first_symbol obj pc.

(** The symbol left for [pc] after all objects were visited in order. *)
Definition resolved_by (simplify_symbol annotate_libname : bool)
    (objs : list MappedObject) (pc : Z) (init : option str) : option str :=
  fold_left
    (fun acc obj =>
       match symbol_at obj pc with
       | Some sym => Some (render simplify_symbol annotate_libname obj sym)
       | None => acc
       end)
    objs init.

End ResolverSpec.

(** ** A host for the examples

    Paths are strings; the file system holds the files of a table, each
    with the text nm prints for it; readelf finds no code section. *)

Fixpoint split_all_aux (sep : char) (cur : str) (s : str) : list str :=
  match s with
  | [] => [rev cur]
  | c :: s' => if c =? sep then rev cur :: split_all_aux sep [] s'
               else split_all_aux sep (c :: cur) s'
  end.

(** [PurePosixPath(p).name]: the last component that is neither empty nor
    a single dot. *)
Definition posix_name (p : str) : str :=
  List.last
    (List.filter (fun part => negb (bool_decide (part = []) || bool_decide (part = py ".")))
       (split_all_aux 47 [] p))
    [].

Definition hex_digit (c : char) : option Z :=
  if (48 <=? c) && (c <=? 57) then Some (c - 48)
  else if (97 <=? c) && (c <=? 102) then Some (c - 87)
  else if (65 <=? c) && (c <=? 70) then Some (c - 55)
  else None.

(** [int(s, 16)] on a plain run of hexadecimal digits. *)
Definition plain_int16 (s : str) : result Z :=
  match s with
  | [] => Raise ValueError
  | _ =>
      fold_left
        (fun acc c =>
           a ← acc;
           match hex_digit c with
           | Some d => Ok (16 * a + d)
           | None => Raise ValueError
           end)
        s (Ok 0)
  end.

Definition table_lookup (files : list (str * str)) (p : str) : option str :=
  snd <$> List.find (fun entry => bool_decide (fst entry = p)) files.

Definition table_host (files : list (str * str)) : Host :=
  {| Path := str;
     mkPath := fun s => s;
     path_name := posix_name;
     path_exists := fun p => bool_decide (is_Some (table_lookup files p));
     access_R_OK := fun p => bool_decide (is_Some (table_lookup files p));
     run_nm := fun dynamic p =>
       match table_lookup files p with
       | Some out => if dynamic then Ok [] else Ok out
       | None => Raise CalledProcessError
       end;
     readelf_text := fun p => Ok None;
     int16 := plain_int16;
     open_rb := fun p => Raise OSError;
     native_order := LittleEndian;
     slots_fit := roomy |}.


(** Two regions over the same address range, and a region with the
    symbol table of the specification's example (addresses 100, 200, 300). *)
Definition example_object (name : string) (syms : list Symbol)
  : @MappedObject (table_host []) :=
  {| start_address := 0x1000;
     end_address := 0x2000;
     offset := 0;
     obj_path := (py name : @Path (table_host []));
     is_executable := false;
     all_symbols_sorted := syms;
     all_addrs_sorted := List.map address syms;
     obj_start_vma := 0 |}.

Definition first_region := example_object "/lib/first.so" [{| address := 0; symbol := py "first" |}].
Definition second_region := example_object "/lib/second.so" [{| address := 0; symbol := py "second" |}].
Definition abc_region :=
  example_object "/lib/abc.so"
    [{| address := 100; symbol := py "a" |};
     {| address := 200; symbol := py "b(int)" |};
     {| address := 300; symbol := py "c" |}].

(** A region over the same range whose only symbol lies after every
    translated address of the range. *)
Definition late_region := example_object "/lib/late.so" [{| address := 5000; symbol := py "late" |}].

(** A profile of one sample of weight 1 with the one counter [pc]. *)
Definition one_counter_profile (pc : Z) : ProfilerResult :=
  {| sampling_period_in_us := 1000;
     proc_mapped_objects := [];
     stacktraces := [sample 1 [pc]] |}.

(** A memory map with an empty line between two mappings. *)
Definition maps_with_blank_line : str :=
  py "00400000-00401000 r--p 00000000 08:01 1 /bin/app" ++ [10; 10]
  ++ py "00401000-00402000 r-xp 00001000 08:01 1 /bin/app".

(** ** The folded-stack table, in the words of the specification *)

(** The part of [s] before the first occurrence of [e]. *)
Fixpoint before_first (e : char) (s : str) : str :=
  match s with
  | [] => []
  | c :: s' => if c =? e then [] else c :: before_first e s'
  end.

(** The weight a sample adds: its count, times the sampling period when
    microseconds are requested. *)
Definition sample_weight (sampling_period : Z) (to_microsecond : bool) (st : Stacktrace) : Z :=
  if to_microsecond then sample_count st * sampling_period else sample_count st.

(** What a sample contributes to the entry [key] of the table. *)
Definition contribution (sampling_period : Z) (to_microsecond : bool) (key : str)
    (st : Stacktrace) : Z :=
  match symbols st with
  | Some (s :: l) =>
      if bool_decide (fold_key (s :: l) = key)
      then sample_weight sampling_period to_microsecond st
      else 0
  | _ => 0
  end.

(** The header condition of the specification's data model, in its words:
    [count==0, slots==3, version==0, sampling_period>0, padding==0]. *)
Definition spec_header_ok (c s v p pad : Z) : Prop :=
  c = 0 /\ s = 3 /\ v = 0 /\ 0 < p /\ pad = 0.

(** ** Symbol clean-up, closed form *)

Definition is_open_bracket (c : char) : bool := (c =? 40) || (c =? 91) || (c =? 60).
Definition is_close_bracket (c : char) : bool := (c =? 41) || (c =? 93) || (c =? 62).

(** The part of [s] before its first character that satisfies [p]. *)
Fixpoint before_any (p : char -> bool) (s : str) : str :=
  match s with
  | [] => []
  | c :: s' => if p c then [] else c :: before_any p s'
  end.

(** [class Symbol] with the field [_cleaned_symbol] that caches the
    simplified name; [simplified_symbol_cached] returns the name and the
    object after the call. *)
Record SymbolObject := {
  so_address : Z;
  so_symbol : str;
  _cleaned_symbol : option str
}.

Definition Symbol_init (address : Z) (symbol : str) : SymbolObject :=
  {| so_address := address; so_symbol := symbol; _cleaned_symbol := None |}.

Definition simplified_symbol_cached (self : SymbolObject) : str * SymbolObject :=
  match _cleaned_symbol self with
  | None =>
      let cleaned := _cleanup_symbol (so_symbol self) in
      (cleaned, {| so_address := so_address self; so_symbol := so_symbol self;
                   _cleaned_symbol := Some cleaned |})
  | Some cleaned => (cleaned, self)
  end.

(** The cache is empty or holds the simplified name of the symbol. *)
Definition cache_ok (self : SymbolObject) : Prop :=
  _cleaned_symbol self = None
  \/ _cleaned_symbol self = Some (_cleanup_symbol (so_symbol self)).

(** What holds of a region appended by [__init__] for the executable
    [executable] and the flag [executable_only]. *)
Definition region_ok `{Host} (executable : Path) (executable_only : bool)
    (obj : MappedObject) : Prop :=
  path_exists (obj_path obj) = true
  /\ access_R_OK (obj_path obj) = true
  /\ (is_executable obj = true -> obj_path obj = executable)
  /\ (executable_only = true -> is_executable obj = true)
  /\ object_wf obj.

(** A host with one binary, [/bin/app], for which nm prints two symbols;
    a memory map with one executable mapping of it; the resolver
    [__init__] builds from them. *)
Definition demo_host : Host :=
  table_host
    [(py "/bin/app",
      py "0000000000001100 T helper(int)" ++ [10] ++ py "0000000000001000 T main" ++ [10])].

Definition demo_map : str := py "00400000-00402000 r-xp 00000000 08:01 1 /bin/app".

Definition demo_resolver : @SymbolResolver demo_host :=
  {| _objects :=
       [{| start_address := 0x400000;
           end_address := 0x402000;
           offset := 0;
           obj_path := (py "/bin/app" : @Path demo_host);
           is_executable := true;
           all_symbols_sorted :=
             [{| address := 0x1000; symbol := py "main" |};
              {| address := 0x1100; symbol := py "helper(int)" |}];
           all_addrs_sorted := [0x1000; 0x1100];
           obj_start_vma := 0 |}] |}.

(** Whether a sample is counted under [key]: it has symbols and they
    fold to [key]. *)
Definition has_key (key : str) (st : Stacktrace) : bool :=
  match symbols st with
  | Some (s :: l) => bool_decide (fold_key (s :: l) = key)
  | _ => false
  end.

(** The sum of the entries of a table. *)
Definition table_total (stacks : gmap str Z) : Z :=
  map_fold (fun _ v acc => v + acc) 0 stacks.

(** The sum of a list of integers. *)
Definition sum_list (l : list Z) : Z := foldr Z.add 0 l.

(** The samples of a profile with their symbols, as [process] fills them
    in (lines 88-99). *)
Definition resolved_samples `{Host} (resolver : SymbolResolver)
    (simplify_symbol annotate_libname : bool) (pr : ProfilerResult) : list Stacktrace :=
  List.map
    (assign_symbols
       (resolve_symbols_batch resolver
          (list_to_set (concat (List.map pcs (stacktraces pr))))
          simplify_symbol annotate_libname))
    (stacktraces pr).

(** The demo host with a profile file: two samples in [/bin/app], one
    with an unknown leaf, and the memory map [demo_map] as text. *)
Definition demo_profile : list byte :=
  pack LittleEndian [0; 3; 0; 1000; 0]
  ++ flat_map (pack_record LittleEndian)
       [sample 5 [0x401104; 0x401010]; sample 2 [0x7000; 0x401104; 0x401010]]
  ++ pack LittleEndian [0; 1; 0]
  ++ List.map byte_of demo_map.

Definition demo_profile_host : Host :=
  {| Path := str;
     mkPath := fun s => s;
     path_name := posix_name;
     path_exists := @path_exists demo_host;
     access_R_OK := @access_R_OK demo_host;
     run_nm := @run_nm demo_host;
     readelf_text := @readelf_text demo_host;
     int16 := plain_int16;
     open_rb := fun p =>
       if bool_decide (p = py "/tmp/app.prof") then Ok demo_profile else Raise OSError;
     native_order := LittleEndian;
     slots_fit := roomy |}.

Definition demo_converter : @Gperf2Flamegraph demo_profile_host :=
  {| symbol_resolver := None;
     _executable_path := (py "/bin/app" : @Path demo_profile_host);
     _profile_result_path := (py "/tmp/app.prof" : @Path demo_profile_host);
     executable_only := false |}.

(** ** The table as the insertion-ordered dict of the source, and the
    text written from it *)

(** [stacks[key] += w] on a [defaultdict(lambda: 0)] whose items, in
    insertion order, are [d]: an entry that exists is updated in place, a
    new key is appended. *)
Fixpoint dict_add (key : str) (w : Z) (d : list (str * Z)) : list (str * Z) :=
  match d with
  | [] => [(key, 0 + w)]
  | (k, v) :: d' =>
      if bool_decide (k = key) then (k, v + w) :: d' else (k, v) :: dict_add key w d'
  end.

(** The body of the collecting loop on the items of the dict. *)
Definition collect_stack_items (sampling_period : Z) (to_microsecond : bool)
    (d : list (str * Z)) (stacktrace : Stacktrace) : list (str * Z) :=
  match symbols stacktrace with
  | None | Some [] => d
  | Some syms =>
      dict_add (fold_key syms)
        (if to_microsecond
         then sample_count stacktrace * sampling_period
         else sample_count stacktrace) d
  end.

(** [str(c)] for an [int]: its decimal digits, with a minus sign when
    negative. *)
Definition str_of_int (c : Z) : str :=
  py (DecimalString.NilZero.string_of_int (Z.to_int c)).

(** One line of the output, without its end: [f'{s} {c}']. *)
Definition data_line (item : str * Z) : str :=
  fst item ++ py " " ++ str_of_int (snd item).

(** [FlamegraphData.__init__]: the text [_data] for the items of
    [stacks], in their order. *)
Definition FlamegraphData_data (items : list (str * Z)) : str :=
  join [10] (List.map data_line items) ++ [10].

(** * Properties *)

(** Closes a goal [Forall word [w1; ...; wn]]. *)
Ltac words :=
  repeat match goal with
         | |- Forall _ (_ :: _) => constructor
         | |- Forall _ [] => constructor
         end;
  first [assumption | unfold word in *; lia].

(** Closes [sample_ok] and [Forall sample_ok] goals on concrete samples. *)
Ltac samples :=
  repeat match goal with
         | |- Forall _ (_ :: _) => constructor
         | |- Forall _ [] => constructor
         | |- sample_ok _ => unfold sample_ok, word, len; cbn
         | |- _ /\ _ => split
         end;
  try first [reflexivity | discriminate | lia].

(** ** Words and bytes *)

Lemma byte_val_of n : 0 <= n < 256 -> byte_val (byte_of n) = n.
Proof.
  intros Hn. unfold byte_val, byte_of.
  destruct (Byte.of_N (Z.to_N n)) as [b|] eqn:E.
  - apply Byte.to_of_N in E. rewrite E. lia.
  - apply Byte.of_N_None_iff in E. lia.
Qed.

Lemma length_le_bytes k w : length (le_bytes k w) = k.
Proof. revert w. induction k; intros; simpl; auto. Qed.

Lemma le_uint_le_bytes k w : 0 <= w -> le_uint (le_bytes k w) = w mod 256 ^ Z.of_nat k.
Proof.
  revert w. induction k as [|k IH]; intros w Hw.
  - simpl. now rewrite Z.mod_1_r.
  - cbn [le_bytes le_uint].
    rewrite byte_val_of by (apply Z.mod_pos_bound; lia).
    rewrite IH by (apply Z.div_pos; lia).
    rewrite Nat2Z.inj_succ, Z.pow_succ_r by lia.
    rewrite Z.rem_mul_r by lia. reflexivity.
Qed.

Lemma length_pack_Q order w : length (pack_Q order w) = 8%nat.
Proof. destruct order; unfold pack_Q; rewrite ?length_rev; apply length_le_bytes. Qed.

Lemma unpack_pack_Q order w : word w -> unpack_Q order (pack_Q order w) = w.
Proof.
  intros Hw. unfold word in Hw.
  assert (le_uint (le_bytes 8 w) = w) as E.
  { rewrite le_uint_le_bytes by lia. apply Z.mod_small. change (256 ^ Z.of_nat 8) with (2 ^ 64). lia. }
  destruct order; unfold unpack_Q, pack_Q; rewrite ?rev_involutive; exact E.
Qed.

Lemma length_pack order ws : length (pack order ws) = (8 * length ws)%nat.
Proof.
  induction ws as [|w ws IH]; simpl; [reflexivity|].
  rewrite length_app, length_pack_Q, IH. lia.
Qed.

Lemma unpack_Qs_pack order ws rest :
  Forall word ws -> unpack_Qs order (length ws) (pack order ws ++ rest) = ws.
Proof.
  induction 1 as [|w ws Hw _ IH]; [reflexivity|].
  cbn [length unpack_Qs pack flat_map]. rewrite <- app_assoc.
  rewrite take_app_length', drop_app_length' by (symmetry; apply length_pack_Q).
  rewrite unpack_pack_Q by exact Hw. f_equal. exact IH.
Qed.

(** Reading back the words that were written. *)
Lemma read_slots_pack order fits ws rest :
  Forall word ws -> read_slots order fits (len ws) (pack order ws ++ rest) = Ok (ws, rest).
Proof.
  intros Hws. unfold read_slots, file_read, len.
  replace (Z.to_nat (8 * Z.of_nat (length ws))) with (length (pack order ws))
    by (rewrite length_pack; lia).
  rewrite take_app_length, drop_app_length.
  rewrite length_pack.
  replace (Z.of_nat (8 * length ws) =? 8 * Z.of_nat (length ws)) with true
    by (symmetry; apply Z.eqb_eq; lia).
  rewrite Nat2Z.id.
  rewrite <- (app_nil_r (pack order ws)), unpack_Qs_pack by exact Hws.
  reflexivity.
Qed.

(** A read for more bytes than the file holds raises. *)
Lemma read_slots_short order fits n f :
  len f < 8 * n -> read_slots order fits n f = Raise (short_read_error fits n).
Proof.
  intros Hn. unfold read_slots, file_read, len in *.
  rewrite length_firstn.
  destruct (Z.of_nat (Nat.min (Z.to_nat (8 * n)) (length f)) =? 8 * n) eqn:E; [|reflexivity].
  apply Z.eqb_eq in E. lia.
Qed.

(** A read the file can satisfy returns. *)
Lemma read_slots_present order fits n f :
  0 <= n -> 8 * n <= len f -> exists ws f', read_slots order fits n f = Ok (ws, f').
Proof.
  intros Hn Hlen. unfold read_slots, file_read, len in *.
  rewrite length_firstn.
  replace (Z.of_nat (Nat.min (Z.to_nat (8 * n)) (length f)) =? 8 * n) with true
    by (symmetry; apply Z.eqb_eq; lia).
  eauto.
Qed.

(** With a count the interpreter can serve, the exception of a short read
    is [struct.error]. *)
Lemma short_read_error_served fits n :
  n < 2 ^ 59 -> fits n = true -> short_read_error fits n = StructError.
Proof.
  intros Hn Hfits. unfold short_read_error, sys_maxsize, bytes_overhead.
  rewrite Hfits. cbn [negb].
  replace (2 ^ 63 - 1 <? n) with false by (symmetry; apply Z.ltb_ge; lia).
  replace (2 ^ 63 - 1 - 33 <? 8 * n) with false by (symmetry; apply Z.ltb_ge; lia).
  reflexivity.
Qed.

(** A count beyond [sys.maxsize] raises [OverflowError] on every host, and
    so does one whose [8 * n] bytes are no size of a [bytes] object when
    the host can build the format string. *)
Lemma short_read_error_overflow fits n :
  sys_maxsize < n \/ (fits n = true /\ sys_maxsize - bytes_overhead < 8 * n) ->
  short_read_error fits n = OverflowError.
Proof.
  unfold short_read_error. intros [Hn | [Hfits Hn]].
  - apply Z.ltb_lt in Hn. now rewrite Hn.
  - rewrite Hfits. apply Z.ltb_lt in Hn. rewrite Hn.
    now destruct (sys_maxsize <? n).
Qed.

(** Below [sys.maxsize], a count the host has no memory for raises
    [MemoryError]. *)
Lemma short_read_error_memory fits n :
  n <= sys_maxsize -> fits n = false -> short_read_error fits n = MemoryError.
Proof.
  unfold short_read_error. intros Hn Hfits. apply Z.ltb_ge in Hn.
  now rewrite Hn, Hfits.
Qed.

(** The loop of the parser, one iteration unfolded. *)
Lemma read_records_step order fits f sts :
  read_records order fits f sts =
  match read_record order fits f with
  | Raise e => Raise e
  | Ok (None, f') => Ok (sts, f')
  | Ok (Some st, f') => read_records order fits f' (sts ++ [st])
  end.
Proof.
  funelim (read_records order fits f sts);
    match goal with E : read_record _ _ _ = _ |- _ => rewrite E end; reflexivity.
Qed.

(** ** The parser on a stream *)

Section ParserFacts.

Variable order : byteorder.
Variable fits : Z -> bool.

Lemma read_record_sample st rest :
  sample_ok st -> read_record order fits (pack_record order st ++ rest) = Ok (Some st, rest).
Proof.
  destruct st as [w counters sy]. unfold sample_ok, pack_record. cbn [sample_count pcs symbols].
  intros (Hw & Hnz & Hn & Hpcs & ->).
  unfold read_record.
  change (pack order (w :: len counters :: counters))
    with (pack order ([w; len counters] ++ counters)).
  unfold pack. rewrite flat_map_app, <- !app_assoc. fold (pack order [w; len counters]).
  fold (pack order counters).
  rewrite (read_slots_pack order fits [w; len counters]) by words.
  cbn [mbind result_bind].
  rewrite read_slots_pack by assumption. cbn [mbind result_bind].
  apply Z.eqb_neq in Hnz. rewrite Hnz. reflexivity.
Qed.

Lemma read_record_trailer pc0 rest :
  word pc0 -> read_record order fits (pack order [0; 1; pc0] ++ rest) = Ok (None, rest).
Proof.
  intros Hpc. unfold read_record.
  change (pack order [0; 1; pc0]) with (pack order ([0; 1] ++ [pc0])).
  unfold pack. rewrite flat_map_app, <- !app_assoc. fold (pack order [0; 1]).
  fold (pack order [pc0]).
  rewrite (read_slots_pack order fits [0; 1]) by words.
  cbn [mbind result_bind].
  rewrite (read_slots_pack order fits [pc0]) by words.
  reflexivity.
Qed.

Lemma read_record_bad_trailer n rest :
  word n -> n <> 1 ->
  read_record order fits (pack order [0; n] ++ rest)
  = Raise (if 8 * n <=? len rest
           then AssertionError "Invalid trailer"
           else short_read_error fits n).
Proof.
  intros Hn Hne. unfold read_record.
  rewrite (read_slots_pack order fits [0; n]) by words.
  cbn [mbind result_bind].
  destruct (8 * n <=? len rest) eqn:E.
  - apply Z.leb_le in E.
    destruct (read_slots_present order fits n rest) as (counters & f & ->);
      [unfold word in Hn; lia|assumption|].
    cbn [mbind result_bind]. apply Z.eqb_neq in Hne. rewrite Hne. reflexivity.
  - apply Z.leb_gt in E. rewrite read_slots_short by assumption. reflexivity.
Qed.

Lemma read_record_short_head partial :
  (length partial < 16)%nat ->
  read_record order fits partial = Raise (short_read_error fits 2).
Proof.
  intros Hshort. unfold read_record.
  rewrite read_slots_short by (unfold len; lia). reflexivity.
Qed.

Lemma read_record_short_counters w n tail :
  word w -> word n -> len tail < 8 * n ->
  read_record order fits (pack order [w; n] ++ tail) = Raise (short_read_error fits n).
Proof.
  intros Hw Hn Htail. unfold read_record.
  rewrite (read_slots_pack order fits [w; n]) by words.
  cbn [mbind result_bind].
  rewrite read_slots_short by assumption. reflexivity.
Qed.

(** The loop appends the records of the stream, in order. *)
Lemma read_records_samples sts acc rest :
  Forall sample_ok sts ->
  read_records order fits (flat_map (pack_record order) sts ++ rest) acc
  = read_records order fits rest (acc ++ sts).
Proof.
  intros Hsts. revert acc.
  induction Hsts as [|st sts Hst _ IH]; intros acc.
  - now rewrite app_nil_r.
  - cbn [flat_map]. rewrite <- app_assoc, read_records_step.
    rewrite read_record_sample by assumption.
    rewrite IH, <- app_assoc. reflexivity.
Qed.

Lemma parse_header c s v p pad rest :
  Forall word [c; s; v; p; pad] ->
  _parse_profiler_result order fits (pack order [c; s; v; p; pad] ++ rest)
  = if (c =? 0) && (s =? 3) && (v =? 0) && (pad =? 0)
    then '(sts, f) ← read_records order fits rest [];
         text ← utf8_decode f;
         Ok {| sampling_period_in_us := p; proc_mapped_objects := text; stacktraces := sts |}
    else Raise (AssertionError "Invalid header, this profiler result is not valid").
Proof.
  intros Hws. unfold _parse_profiler_result.
  rewrite (read_slots_pack order fits [c; s; v; p; pad]) by assumption.
  reflexivity.
Qed.

(** A well-formed stream parses to its samples, its period and its text. *)
Lemma parse_well_formed p sts pc0 text s :
  word p -> Forall sample_ok sts -> word pc0 -> utf8_decode text = Ok s ->
  _parse_profiler_result order fits
    (pack order [0; 3; 0; p; 0] ++ flat_map (pack_record order) sts
     ++ pack order [0; 1; pc0] ++ text)
  = Ok {| sampling_period_in_us := p; proc_mapped_objects := s; stacktraces := sts |}.
Proof.
  intros Hp Hsts Hpc Htext.
  rewrite parse_header by words.
  cbn [Z.eqb andb].
  rewrite read_records_samples by assumption.
  rewrite read_records_step, read_record_trailer by assumption.
  cbn [mbind result_bind app]. rewrite Htext. reflexivity.
Qed.

End ParserFacts.

(** C3, as the source has it: the header is rejected, before any record is
    read, exactly when one of [count == 0], [slots == 3], [version == 0],
    [padding == 0] fails; the sampling period is not looked at, so with
    those four satisfied every period (zero included) passes the check
    and the parser goes on to the records. *)
Theorem header_validation order fits c s v p pad rest :
  Forall word [c; s; v; p; pad] ->
  (~ (c = 0 /\ s = 3 /\ v = 0 /\ pad = 0) ->
   _parse_profiler_result order fits (pack order [c; s; v; p; pad] ++ rest)
   = Raise (AssertionError "Invalid header, this profiler result is not valid"))
  /\ (c = 0 /\ s = 3 /\ v = 0 /\ pad = 0 ->
      _parse_profiler_result order fits (pack order [c; s; v; p; pad] ++ rest)
      = '(sts, f) ← read_records order fits rest [];
        text ← utf8_decode f;
        Ok {| sampling_period_in_us := p; proc_mapped_objects := text; stacktraces := sts |}).
Proof.
  intros Hws. rewrite parse_header by assumption. split.
  - intros Hbad.
    destruct ((c =? 0) && (s =? 3) && (v =? 0) && (pad =? 0)) eqn:E; [|reflexivity].
    exfalso. apply Hbad.
    rewrite !andb_true_iff, !Z.eqb_eq in E. tauto.
  - intros (-> & -> & -> & ->). reflexivity.
Qed.

Lemma header_validation_witness :
  _parse_profiler_result LittleEndian roomy
    (pack LittleEndian [0; 2; 0; 1000; 0] ++ pack LittleEndian [0; 1; 0])
  = Raise (AssertionError "Invalid header, this profiler result is not valid").
Proof.
  apply (header_validation LittleEndian roomy 0 2 0 1000 0).
  - unfold word. repeat constructor; lia.
  - lia.
Defined.

(** C3 as stated fails: a header whose sampling period is 0, the other
    four conditions satisfied, is accepted. *)
Lemma zero_period_header_accepted :
  ~ spec_header_ok 0 3 0 0 0
  /\ _parse_profiler_result LittleEndian roomy (pack LittleEndian [0; 3; 0; 0; 0; 0; 1; 0])
     = Ok {| sampling_period_in_us := 0; proc_mapped_objects := []; stacktraces := [] |}.
Proof.
  split.
  - unfold spec_header_ok. lia.
  - vm_compute. reflexivity.
Qed.

(** C4: on a well-formed stream (header, records of non-zero weight, the
    trailer, then the text) the parser returns exactly the records before
    the trailer, in order, and what follows the trailer is the memory-map
    text, whatever its bytes; with no record before the trailer the
    sample list is empty. *)
Theorem parser_stops_at_trailer order fits p sts pc0 text s :
  word p -> Forall sample_ok sts -> word pc0 -> utf8_decode text = Ok s ->
  _parse_profiler_result order fits
    (pack order [0; 3; 0; p; 0] ++ flat_map (pack_record order) sts
     ++ pack order [0; 1; pc0] ++ text)
  = Ok {| sampling_period_in_us := p; proc_mapped_objects := s; stacktraces := sts |}
  /\ _parse_profiler_result order fits
       (pack order [0; 3; 0; p; 0] ++ pack order [0; 1; pc0] ++ text)
     = Ok {| sampling_period_in_us := p; proc_mapped_objects := s; stacktraces := [] |}.
Proof.
  intros Hp Hsts Hpc Htext. split.
  - now apply parse_well_formed.
  - now apply (parse_well_formed order fits p [] pc0 text s).
Qed.

Lemma parser_stops_at_trailer_witness :
  _parse_profiler_result BigEndian roomy
    (pack BigEndian [0; 3; 0; 1000; 0]
     ++ flat_map (pack_record BigEndian) [sample 5 [4096; 8192]; sample 7 [12288]]
     ++ pack BigEndian [0; 1; 0] ++ pack BigEndian [0; 1; 0])
  = Ok {| sampling_period_in_us := 1000;
          proc_mapped_objects := [0;0;0;0;0;0;0;0;0;0;0;0;0;0;0;1;0;0;0;0;0;0;0;0];
          stacktraces := [sample 5 [4096; 8192]; sample 7 [12288]] |}.
Proof.
  refine (proj1 (parser_stops_at_trailer BigEndian roomy 1000
                   [sample 5 [4096; 8192]; sample 7 [12288]] 0 (pack BigEndian [0; 1; 0])
                   [0;0;0;0;0;0;0;0;0;0;0;0;0;0;0;1;0;0;0;0;0;0;0;0] _ _ _ _)).
  - unfold word; lia.
  - samples.
  - unfold word; lia.
  - vm_compute. reflexivity.
Defined.

(** C5, as the source has it: a record of weight 0 whose counter count [n] is not 1
    makes the parser raise: the assertion "Invalid trailer" when the [n]
    counters are in the stream, and the exception of the short read when
    they are not.  A stream that ends inside a record, whether in its two
    leading words or in its counters, and a stream shorter than the header
    make the parser raise the exception of the short read.  In each case
    the result is an exception, with no samples.  The exception of a short
    read for [n] words is [struct.error] when [n < 2 ^ 59] and the host
    has the memory for the read; it is [OverflowError] when [n] exceeds
    [sys.maxsize], and [MemoryError] when [n] does not and the host has
    not the memory. *)
Theorem bad_trailer_and_truncation_rejected order fits p sts :
  word p -> Forall sample_ok sts ->
  (forall n rest, word n -> n <> 1 ->
     _parse_profiler_result order fits
       (pack order [0; 3; 0; p; 0] ++ flat_map (pack_record order) sts
        ++ pack order [0; n] ++ rest)
     = Raise (if 8 * n <=? len rest
              then AssertionError "Invalid trailer"
              else short_read_error fits n))
  /\ (forall w n tail, word w -> word n -> len tail < 8 * n ->
        _parse_profiler_result order fits
          (pack order [0; 3; 0; p; 0] ++ flat_map (pack_record order) sts
           ++ pack order [w; n] ++ tail)
        = Raise (short_read_error fits n))
  /\ (forall partial, (length partial < 16)%nat ->
        _parse_profiler_result order fits
          (pack order [0; 3; 0; p; 0] ++ flat_map (pack_record order) sts ++ partial)
        = Raise (short_read_error fits 2))
  /\ (forall f, (length f < 40)%nat ->
        _parse_profiler_result order fits f = Raise (short_read_error fits 5))
  /\ (forall n, (n < 2 ^ 59 -> fits n = true ->
                 short_read_error fits n = StructError
                 /\ is_format_error (short_read_error fits n) = true)
                /\ (sys_maxsize < n ->
                    short_read_error fits n = OverflowError
                    /\ is_format_error (short_read_error fits n) = false)
                /\ (n <= sys_maxsize -> fits n = false ->
                    short_read_error fits n = MemoryError
                    /\ is_format_error (short_read_error fits n) = false)).
Proof.
  intros Hp Hsts. repeat split.
  - intros n rest Hn Hne.
    rewrite parse_header by words. cbn [Z.eqb andb].
    rewrite read_records_samples by assumption.
    rewrite read_records_step. cbn [app].
    rewrite read_record_bad_trailer by assumption. reflexivity.
  - intros w n tail Hw Hn Htail.
    rewrite parse_header by words. cbn [Z.eqb andb].
    rewrite read_records_samples by assumption.
    rewrite read_records_step. cbn [app].
    rewrite read_record_short_counters by assumption. reflexivity.
  - intros partial Hpart.
    rewrite parse_header by words. cbn [Z.eqb andb].
    rewrite read_records_samples by assumption.
    rewrite read_records_step. cbn [app].
    rewrite read_record_short_head by assumption. reflexivity.
  - intros f Hf. unfold _parse_profiler_result.
    rewrite read_slots_short by (unfold len; lia). reflexivity.
  - now apply short_read_error_served.
  - rewrite short_read_error_served by assumption. reflexivity.
  - apply short_read_error_overflow. now left.
  - rewrite short_read_error_overflow by now left. reflexivity.
  - now apply short_read_error_memory.
  - rewrite short_read_error_memory by assumption. reflexivity.
Qed.

Lemma bad_trailer_and_truncation_rejected_witness :
  _parse_profiler_result LittleEndian roomy
    (pack LittleEndian [0; 3; 0; 1000; 0]
     ++ flat_map (pack_record LittleEndian) [sample 5 [4096; 8192]]
     ++ pack LittleEndian [0; 2] ++ pack LittleEndian [7; 9])
  = Raise (AssertionError "Invalid trailer")
  /\ _parse_profiler_result LittleEndian roomy
       (pack LittleEndian [0; 3; 0; 1000; 0]
        ++ flat_map (pack_record LittleEndian) [sample 5 [4096; 8192]]
        ++ pack LittleEndian [3; 2] ++ pack LittleEndian [4096])
     = Raise StructError.
Proof.
  assert (Hp : word 1000) by (unfold word; lia).
  assert (Hs : Forall sample_ok [sample 5 [4096; 8192]]) by samples.
  destruct (bad_trailer_and_truncation_rejected LittleEndian roomy 1000 _ Hp Hs)
    as (H1 & H2 & _).
  split.
  - apply (H1 2 (pack LittleEndian [7; 9])); unfold word; lia.
  - apply (H2 3 2 (pack LittleEndian [4096])); unfold word; try lia.
    vm_compute. reflexivity.
Defined.

(** C5, as stated, fails: a record of weight 0 that announces [2 ^ 63]
    counters, and a record cut short that announces [2 ^ 62] of them, make
    the parser raise [OverflowError] and [MemoryError], neither of them
    the exception of a malformed stream. *)
Lemma huge_count_is_no_format_error :
  _parse_profiler_result LittleEndian roomy
    (pack LittleEndian [0; 3; 0; 1000; 0] ++ pack LittleEndian [0; 2 ^ 63])
  = Raise OverflowError
  /\ _parse_profiler_result LittleEndian roomy
       (pack LittleEndian [0; 3; 0; 1000; 0]
        ++ pack LittleEndian [5; 2 ^ 62] ++ pack LittleEndian [4096])
     = Raise MemoryError
  /\ is_format_error OverflowError = false
  /\ is_format_error MemoryError = false.
Proof.
  split; [|split; [|split; reflexivity]].
  - rewrite <- (app_nil_r (pack LittleEndian [0; 2 ^ 63])).
    rewrite parse_header by words. cbn [Z.eqb andb].
    rewrite read_records_step.
    rewrite read_record_bad_trailer by (unfold word; lia). reflexivity.
  - rewrite parse_header by words. cbn [Z.eqb andb].
    rewrite read_records_step.
    rewrite read_record_short_counters; [reflexivity|unfold word; lia..|].
    vm_compute. reflexivity.
Qed.

(** ** Binary search *)

Lemma bisect_loop_step a x lo hi :
  bisect_loop a x lo hi =
  if lo <? hi
  then let mid := (lo + hi) `div` 2 in
       if x <? nth (Z.to_nat mid) a 0
       then bisect_loop a x lo mid
       else bisect_loop a x (mid + 1) hi
  else lo.
Proof.
  funelim (bisect_loop a x lo hi);
    match goal with E : (_ <? _) = _ |- _ => rewrite E end; reflexivity.
Qed.

Lemma sorted_nth (a : list Z) i j :
  StronglySorted Z.le a -> (i <= j < length a)%nat -> nth i a 0 <= nth j a 0.
Proof.
  intros Hs. revert i j.
  induction Hs as [|y a Hs IH Hall]; intros i j Hij; simpl in Hij; [lia|].
  destruct j as [|j]; [replace i with O by lia; simpl; lia|].
  destruct i as [|i]; simpl.
  - rewrite List.Forall_forall in Hall. apply Hall, nth_In. lia.
  - apply IH. lia.
Qed.

(** The loop keeps [a[:lo] <= x < a[hi:]]. *)
Lemma bisect_loop_spec a x :
  StronglySorted Z.le a ->
  forall n lo hi,
    hi - lo <= Z.of_nat n -> 0 <= lo <= hi -> hi <= len a ->
    (forall i, (i < Z.to_nat lo)%nat -> nth i a 0 <= x) ->
    (forall i, (Z.to_nat hi <= i < length a)%nat -> x < nth i a 0) ->
    let r := bisect_loop a x lo hi in
    lo <= r <= hi
    /\ (forall i, (i < Z.to_nat r)%nat -> nth i a 0 <= x)
    /\ (forall i, (Z.to_nat r <= i < length a)%nat -> x < nth i a 0).
Proof.
  intros Hs. unfold len.
  induction n as [|n IH]; intros lo hi Hn Hlo Hhi Hle Hgt; cbv zeta;
    rewrite bisect_loop_step.
  - replace (lo <? hi) with false by (symmetry; apply Z.ltb_ge; lia).
    replace hi with lo in * by lia. repeat split; auto; lia.
  - destruct (lo <? hi) eqn:E.
    2:{ apply Z.ltb_ge in E. replace hi with lo in * by lia. repeat split; auto; lia. }
    apply Z.ltb_lt in E. cbv zeta.
    pose proof (Z.div_mod (lo + hi) 2 ltac:(lia)) as Hd.
    pose proof (Z.mod_pos_bound (lo + hi) 2 ltac:(lia)) as Hm.
    set (mid := (lo + hi) `div` 2) in *.
    destruct (x <? nth (Z.to_nat mid) a 0) eqn:Ex.
    + apply Z.ltb_lt in Ex.
      destruct (IH lo mid) as (H1 & H2 & H3); try lia; auto.
      { intros i Hi.
        destruct (Nat.lt_ge_cases i (Z.to_nat hi)) as [Hlt|Hge]; [|apply Hgt; lia].
        pose proof (sorted_nth a (Z.to_nat mid) i Hs ltac:(lia)). lia. }
      repeat split; auto; lia.
    + apply Z.ltb_ge in Ex.
      destruct (IH (mid + 1) hi) as (H1 & H2 & H3); try lia; auto.
      { intros i Hi.
        pose proof (sorted_nth a i (Z.to_nat mid) Hs ltac:(lia)). lia. }
      repeat split; auto; lia.
Qed.

(** [bisect_right] on a sorted list: the insertion point to the right of
    every entry [<= x]. *)
Lemma bisect_right_spec a x :
  StronglySorted Z.le a ->
  let r := bisect_right a x in
  0 <= r <= len a
  /\ (forall i, (i < Z.to_nat r)%nat -> nth i a 0 <= x)
  /\ (forall i, (Z.to_nat r <= i < length a)%nat -> x < nth i a 0).
Proof.
  intros Hs. unfold bisect_right.
  apply (bisect_loop_spec a x Hs (length a) 0 (len a)); unfold len; lia.
Qed.

(** ** The resolver *)

Section ResolverFacts.

Context `{Host}.

Variables simplify_symbol annotate_libname : bool.

Lemma resolve_pc_symbol_at obj (result : gmap Z str) pc :
  resolve_pc simplify_symbol annotate_libname obj result pc
  = match symbol_at obj pc with
    | Some sym => <[pc := render simplify_symbol annotate_libname obj sym]> result
    | None => result
    end.
Proof.
  unfold resolve_pc, symbol_at, render, translate.
  destruct ((start_address obj <=? pc) && (pc <? end_address obj)); [|reflexivity].
  cbn [negb]. cbv zeta.
  destruct (_ && (_ <? len (all_symbols_sorted obj))); [|reflexivity].
  destruct (all_symbols_sorted obj !! _); reflexivity.
Qed.

(** The inner loop: only the counters of [pcs] are touched, each one by
    its own entry, so the order of the visit does not matter. *)
Lemma inner_loop_lookup obj (l : list Z) (result : gmap Z str) pc :
  fold_left (resolve_pc simplify_symbol annotate_libname obj) l result !! pc
  = if bool_decide (pc ∈ l)
    then match symbol_at obj pc with
         | Some sym => Some (render simplify_symbol annotate_libname obj sym)
         | None => result !! pc
         end
    else result !! pc.
Proof.
  revert result. induction l as [|q l IH]; intros result; [reflexivity|].
  cbn [fold_left]. rewrite IH, resolve_pc_symbol_at.
  destruct (decide (q = pc)) as [->|Hne].
  - rewrite (bool_decide_eq_true_2 (pc ∈ pc :: l)) by left.
    destruct (symbol_at obj pc) as [sym|] eqn:E.
    + rewrite lookup_insert_eq. now destruct (bool_decide (pc ∈ l)).
    + now destruct (bool_decide (pc ∈ l)).
  - assert ((match symbol_at obj q with
             | Some sym => <[q := render simplify_symbol annotate_libname obj sym]> result
             | None => result
             end) !! pc = result !! pc) as ->.
    { destruct (symbol_at obj q); [now rewrite lookup_insert_ne|reflexivity]. }
    destruct (decide (pc ∈ l)) as [Hin|Hnin].
    + rewrite !bool_decide_eq_true_2; [reflexivity|now right|assumption].
    + rewrite !bool_decide_eq_false_2; [reflexivity| |assumption].
      intros Hin. apply elem_of_cons in Hin as [?|?]; congruence.
Qed.

Lemma outer_loop_lookup objs (l : list Z) (result : gmap Z str) pc :
  pc ∈ l ->
  fold_left
    (fun result obj => fold_left (resolve_pc simplify_symbol annotate_libname obj) l result)
    objs result !! pc
  = resolved_by simplify_symbol annotate_libname objs pc (result !! pc).
Proof.
  intros Hin. revert result. unfold resolved_by.
  induction objs as [|obj objs IH]; intros result; [reflexivity|].
  cbn [fold_left]. rewrite IH, inner_loop_lookup, bool_decide_eq_true_2 by assumption.
  reflexivity.
Qed.

(** The table returned by [resolve_symbols_batch], read at a counter of
    the batch. *)
Lemma batch_lookup self (pcs : gset Z) pc :
  pc ∈ pcs ->
  resolve_symbols_batch self pcs simplify_symbol annotate_libname !! pc
  = resolved_by simplify_symbol annotate_libname (_objects self) pc None.
Proof.
  intros Hin. unfold resolve_symbols_batch.
  rewrite outer_loop_lookup by (now apply elem_of_elements).
  now rewrite lookup_empty.
Qed.

Lemma resolved_by_none objs pc init :
  (forall o, o ∈ objs -> symbol_at o pc = None) ->
  resolved_by simplify_symbol annotate_libname objs pc init = init.
Proof.
  unfold resolved_by. revert init.
  induction objs as [|o objs IH]; intros init Hnone; [reflexivity|].
  cbn [fold_left]. rewrite (Hnone o) by left.
  apply IH. intros o' Ho'. apply Hnone. now right.
Qed.

Lemma resolved_by_last objs1 obj objs2 pc init sym :
  symbol_at obj pc = Some sym ->
  (forall o, o ∈ objs2 -> symbol_at o pc = None) ->
  resolved_by simplify_symbol annotate_libname (objs1 ++ obj :: objs2) pc init
  = Some (render simplify_symbol annotate_libname obj sym).
Proof.
  intros Hsym Hnone. unfold resolved_by.
  rewrite fold_left_app. cbn [fold_left]. rewrite Hsym.
  now apply resolved_by_none.
Qed.

Lemma rightmost_le_unique syms target i sym j sym' :
  rightmost_le syms target i sym -> rightmost_le syms target j sym' ->
  i = j /\ sym = sym'.
Proof.
  intros (Hi & Hle & Hright) (Hj & Hle' & Hright').
  assert (i = j) as ->.
  { destruct (Nat.lt_trichotomy i j) as [Hlt|[Heq|Hgt]]; [|assumption|].
    - specialize (Hright j sym' Hj Hlt). lia.
    - specialize (Hright' i sym Hi Hgt). lia. }
  split; congruence.
Qed.

Lemma nth_addresses (syms : list Symbol) i sym :
  syms !! i = Some sym -> nth i (List.map address syms) 0 = address sym.
Proof.
  revert i. induction syms as [|s0 syms IH]; intros [|i] Hi; try discriminate.
  - now injection Hi as ->.
  - simpl. now apply IH.
Qed.

(** In a region that contains [pc], the loop body picks the rightmost
    entry at or before the translated address, and nothing when every
    entry lies after it. *)
Lemma symbol_at_in_region obj pc :
  object_wf obj -> in_region obj pc ->
  (symbol_at obj pc = None
   /\ forall sy, sy ∈ all_symbols_sorted obj -> translate obj pc < address sy)
  \/ (exists i sym, symbol_at obj pc = Some sym
                    /\ rightmost_le (all_symbols_sorted obj) (translate obj pc) i sym).
Proof.
  intros [Haddrs Hsorted] Hin. unfold in_region in Hin. unfold symbol_at.
  replace ((start_address obj <=? pc) && (pc <? end_address obj)) with true
    by (symmetry; apply andb_true_iff; split; [apply Z.leb_le|apply Z.ltb_lt]; lia).
  cbv zeta.
  destruct (bisect_right_spec _ (translate obj pc) Hsorted) as (Hr & Hbelow & Habove).
  set (r := bisect_right (all_addrs_sorted obj) (translate obj pc)) in *.
  rewrite Haddrs in Hr, Hbelow, Habove. unfold len in *.
  rewrite length_map in Hr, Habove.
  destruct (Z.eq_dec r 0) as [Hz|Hnz].
  - left. replace ((0 <=? r - 1) && _) with false
      by (symmetry; apply andb_false_iff; left; apply Z.leb_gt; lia).
    split; [reflexivity|].
    intros sy Hsy. apply list_elem_of_lookup in Hsy as [j Hj].
    rewrite <- (nth_addresses _ j sy Hj). apply Habove.
    apply lookup_lt_Some in Hj. lia.
  - right. replace ((0 <=? r - 1) && _) with true
      by (symmetry; apply andb_true_iff; split; [apply Z.leb_le|apply Z.ltb_lt]; lia).
    destruct (lookup_lt_is_Some_2 (all_symbols_sorted obj) (Z.to_nat (r - 1))) as [sym Hsym];
      [lia|].
    exists (Z.to_nat (r - 1)), sym. split; [assumption|].
    split; [assumption|]. split.
    + rewrite <- (nth_addresses _ _ sym Hsym). apply Hbelow. lia.
    + intros j sym' Hj Hlt. rewrite <- (nth_addresses _ j sym' Hj). apply Habove.
      apply lookup_lt_Some in Hj. lia.
Qed.

Lemma symbol_at_outside obj pc : ~ in_region obj pc -> symbol_at obj pc = None.
Proof.
  unfold in_region, symbol_at. intros Hout.
  destruct ((start_address obj <=? pc) && (pc <? end_address obj)) eqn:E; [|reflexivity].
  apply andb_true_iff in E as [E1 E2]. apply Z.leb_le in E1. apply Z.ltb_lt in E2. lia.
Qed.

End ResolverFacts.

(** Every counter of every sample is in the batch [process] resolves. *)
Lemma counters_in_batch (sts : list Stacktrace) st pc :
  st ∈ sts -> pc ∈ pcs st ->
  pc ∈ (list_to_set (concat (List.map pcs sts)) : gset Z).
Proof.
  intros Hst Hpc. apply elem_of_list_to_set, list_elem_of_In, in_concat.
  exists (pcs st). split; [|now apply list_elem_of_In].
  apply in_map, list_elem_of_In, Hst.
Qed.

Section ResolutionClaims.

Context `{Host}.

Variables simplify_symbol annotate_libname : bool.

Lemma symbol_at_some obj pc i sym :
  object_wf obj -> in_region obj pc ->
  rightmost_le (all_symbols_sorted obj) (translate obj pc) i sym ->
  symbol_at obj pc = Some sym.
Proof.
  intros Hwf Hin Hright.
  destruct (symbol_at_in_region obj pc Hwf Hin) as [[_ Hall]|(j & sym' & Hsym & Hright')].
  - destruct Hright as (Hi & Hle & _).
    specialize (Hall sym (proj2 (list_elem_of_lookup _ _) (ex_intro _ i Hi))). lia.
  - destruct (rightmost_le_unique _ _ _ _ _ _ Hright Hright') as [_ ->]. exact Hsym.
Qed.

Lemma symbol_at_none obj pc :
  object_wf obj ->
  ~ in_region obj pc
  \/ (forall sy, sy ∈ all_symbols_sorted obj -> translate obj pc < address sy) ->
  symbol_at obj pc = None.
Proof.
  intros Hwf [Hout|Hall]; [now apply symbol_at_outside|].
  destruct (decide (in_region obj pc)) as [Hin|Hout]; [|now apply symbol_at_outside].
  destruct (symbol_at_in_region obj pc Hwf Hin) as [[E _]|(j & sym' & _ & Hj & Hle & _)];
    [assumption|].
  specialize (Hall sym' (proj2 (list_elem_of_lookup _ _) (ex_intro _ j Hj))). lia.
Qed.

(** The first entry of a sorted table has the least address. *)
Lemma head_least obj sy0 sy :
  object_wf obj -> head (all_symbols_sorted obj) = Some sy0 ->
  sy ∈ all_symbols_sorted obj -> address sy0 <= address sy.
Proof.
  intros [Haddrs Hsorted] Hhead Hsy.
  apply list_elem_of_lookup in Hsy as [j Hj].
  rewrite Haddrs in Hsorted.
  assert (all_symbols_sorted obj !! 0%nat = Some sy0) as H0
    by (destruct (all_symbols_sorted obj); [discriminate|exact Hhead]).
  rewrite <- (nth_addresses _ _ _ H0), <- (nth_addresses _ _ _ Hj).
  apply sorted_nth; [assumption|].
  rewrite length_map. apply lookup_lt_Some in Hj. lia.
Qed.

Lemma before_first_symbol_all obj pc sy :
  object_wf obj -> before_first_symbol obj pc ->
  sy ∈ all_symbols_sorted obj -> translate obj pc < address sy.
Proof.
  intros Hwf Hbefore Hsy. unfold before_first_symbol in Hbefore.
  destruct (head (all_symbols_sorted obj)) as [sy0|] eqn:Hhead.
  - pose proof (head_least obj sy0 sy Hwf Hhead Hsy). lia.
  - destruct (all_symbols_sorted obj); [now apply elem_of_nil in Hsy|discriminate].
Qed.

Lemma unresolved_in_none obj pc :
  object_wf obj -> unresolved_in obj pc -> symbol_at obj pc = None.
Proof.
  intros Hwf [Hout|Hbefore]; apply symbol_at_none; try assumption.
  - now left.
  - right. intros sy Hsy. now apply (before_first_symbol_all obj pc sy).
Qed.

Lemma map_lookup_Some {A B} (f : A -> B) (l : list A) (i : nat) (x : A) :
  l !! i = Some x -> List.map f l !! i = Some (f x).
Proof.
  revert i. induction l as [|a l IH]; intros [|i] Hi; try discriminate.
  - now injection Hi as ->.
  - cbn. now apply IH.
Qed.

(** C1, as the source has it: the symbol [process] assigns to the counter at
    position [i] of the sample at position [k], the regions' tables being
    sorted as [__init__] builds them.  [process] folds the samples with
    the symbols it assigned; the sample keeps its weight and counters and
    gets one symbol for each counter.  The symbol of [pc] is the unknown
    marker when every region leaves [pc] unresolved, that is, [pc] lies
    outside its range or its translated address precedes the first symbol
    of the region.  Otherwise it is the rendered name of the rightmost
    entry at or before the translated address in the last region of the
    list that contains [pc] and has its first symbol at or before that
    address, whatever the regions before it. *)
Theorem pc_resolution (resolver : SymbolResolver) (pr : ProfilerResult)
    (to_microsecond : bool) (k i : nat) (st : Stacktrace) (pc : Z) :
  Forall object_wf (_objects resolver) ->
  stacktraces pr !! k = Some st -> pcs st !! i = Some pc ->
  process_stacks resolver pr simplify_symbol annotate_libname to_microsecond
  = fold_left (collect_stack (sampling_period_in_us pr) to_microsecond)
      (resolved_samples resolver simplify_symbol annotate_libname pr) ∅
  /\ exists syms final,
       resolved_samples resolver simplify_symbol annotate_libname pr !! k
       = Some {| sample_count := sample_count st; pcs := pcs st; symbols := Some syms |}
       /\ length syms = length (pcs st)
       /\ syms !! i = Some final
       /\ ((forall o, o ∈ _objects resolver -> unresolved_in o pc) ->
           final = _UNKNOWN_SYMBOL)
       /\ (forall objs1 obj objs2 sy0,
             _objects resolver = objs1 ++ obj :: objs2 ->
             in_region obj pc ->
             head (all_symbols_sorted obj) = Some sy0 ->
             address sy0 <= translate obj pc ->
             (forall o, o ∈ objs2 -> unresolved_in o pc) ->
             exists j sym,
               rightmost_le (all_symbols_sorted obj) (translate obj pc) j sym
               /\ final = render simplify_symbol annotate_libname obj sym).
Proof.
  intros Hwf Hst Hpc. split; [reflexivity|].
  rewrite List.Forall_forall in Hwf.
  assert (forall o, o ∈ _objects resolver -> object_wf o) as Hwf'
    by (intros o Ho; apply Hwf; now apply list_elem_of_In).
  set (tbl := resolve_symbols_batch resolver
                (list_to_set (concat (List.map pcs (stacktraces pr))))
                simplify_symbol annotate_libname).
  exists (List.map (fun pc => default _UNKNOWN_SYMBOL (tbl !! pc)) (pcs st)),
    (default _UNKNOWN_SYMBOL (tbl !! pc)).
  split; [|split; [|split; [|split]]].
  - unfold resolved_samples. fold tbl.
    now rewrite (map_lookup_Some (assign_symbols tbl) _ k st Hst).
  - apply length_map.
  - exact (map_lookup_Some (fun pc => default _UNKNOWN_SYMBOL (tbl !! pc)) _ i pc Hpc).
  - intros Hall. unfold tbl. rewrite batch_lookup.
    + rewrite resolved_by_none; [reflexivity|].
      intros o Ho. apply unresolved_in_none; [now apply Hwf'|now apply Hall].
    + apply (counters_in_batch _ st); eapply list_elem_of_lookup_2; eassumption.
  - intros objs1 obj objs2 sy0 Hobjs Hin Hhead Hle Hlater.
    assert (obj ∈ _objects resolver) as Hobj
      by (rewrite Hobjs; apply elem_of_app; right; left).
    destruct (symbol_at_in_region obj pc (Hwf' obj Hobj) Hin)
      as [[_ Hall]|(j & sym & E & Hright)].
    + exfalso.
      assert (sy0 ∈ all_symbols_sorted obj) as Hsy0
        by (destruct (all_symbols_sorted obj); [discriminate|injection Hhead as ->; left]).
      specialize (Hall sy0 Hsy0). lia.
    + exists j, sym. split; [assumption|].
      unfold tbl. rewrite batch_lookup.
      * rewrite Hobjs, (resolved_by_last _ _ objs1 obj objs2 pc None sym E); [reflexivity|].
        intros o Ho. apply unresolved_in_none; [|now apply Hlater].
        apply Hwf'. rewrite Hobjs. apply elem_of_app. right. now right.
      * apply (counters_in_batch _ st); eapply list_elem_of_lookup_2; eassumption.
Qed.

(** C2, as the source has it: the table entry of a counter is written by
    every region that contains it and has an entry at or before the
    translated address, so the last such region of the list wins, whatever
    the regions before it. *)
Theorem last_matching_region_wins (self : SymbolResolver) (pcs : gset Z) pc
    objs1 obj objs2 i sym :
  _objects self = objs1 ++ obj :: objs2 ->
  object_wf obj -> Forall object_wf objs2 -> pc ∈ pcs ->
  in_region obj pc ->
  rightmost_le (all_symbols_sorted obj) (translate obj pc) i sym ->
  (forall o, o ∈ objs2 ->
     ~ in_region o pc
     \/ forall sy, sy ∈ all_symbols_sorted o -> translate o pc < address sy) ->
  resolve_symbols_batch self pcs simplify_symbol annotate_libname !! pc
  = Some (render simplify_symbol annotate_libname obj sym).
Proof.
  intros Hobjs Hwf Hwf2 Hpc Hin Hright Hlater.
  rewrite batch_lookup, Hobjs by assumption.
  apply resolved_by_last.
  - now apply (symbol_at_some obj pc i sym).
  - intros o Ho. apply symbol_at_none; [|now apply Hlater].
    rewrite List.Forall_forall in Hwf2. now apply Hwf2, list_elem_of_In.
Qed.

End ResolutionClaims.

Lemma example_object_wf name syms :
  StronglySorted Z.le (List.map address syms) -> object_wf (example_object name syms).
Proof. intros Hs. split; [reflexivity|exact Hs]. Qed.

Lemma pc_resolution_witness :
  exists syms,
    resolved_samples {| _objects := [first_region; abc_region; late_region] |} false false
      (one_counter_profile 4346) !! 0%nat
    = Some {| sample_count := 1; pcs := [4346]; symbols := Some syms |}
    /\ syms !! 0%nat = Some (py "b(int)").
Proof.
  assert (Forall object_wf (_objects {| _objects := [first_region; abc_region; late_region] |}))
    as Hwf.
  { repeat constructor; cbn; try lia. }
  destruct (pc_resolution false false {| _objects := [first_region; abc_region; late_region] |}
              (one_counter_profile 4346) false 0 0 (sample 1 [4346]) 4346
              Hwf eq_refl eq_refl)
    as (_ & syms & final & Hk & _ & Hi & _ & Hlast).
  exists syms. split; [exact Hk|].
  destruct (Hlast [first_region] abc_region [late_region] {| address := 100; symbol := py "a" |})
    as (j & sym & Hright & ->).
  - reflexivity.
  - unfold in_region. cbn. lia.
  - reflexivity.
  - vm_compute. discriminate.
  - intros o Ho. apply list_elem_of_singleton in Ho as ->.
    right. vm_compute. reflexivity.
  - assert (rightmost_le (all_symbols_sorted abc_region) (translate abc_region 4346) 1%nat
              {| address := 200; symbol := py "b(int)" |}) as Hright'.
    { split; [reflexivity|]. split; [vm_compute; discriminate|].
      intros j' sym' Hj Hlt. destruct j' as [|[|[|j']]]; try lia; [|discriminate].
      injection Hj as <-. vm_compute. reflexivity. }
    destruct (rightmost_le_unique _ _ _ _ _ _ Hright Hright') as [_ ->]. exact Hi.
Defined.

(** C1, as stated, fails: the counter falls in a region whose first
    symbol lies after the translated address, and yet [process] assigns
    it the symbol of another region that contains it. *)
Lemma region_before_first_symbol_resolved :
  in_region late_region 0x1800
  /\ head (all_symbols_sorted late_region) = Some {| address := 5000; symbol := py "late" |}
  /\ translate late_region 0x1800 < 5000
  /\ resolved_samples {| _objects := [late_region; second_region] |} false false
       (one_counter_profile 0x1800)
     = [{| sample_count := 1; pcs := [0x1800]; symbols := Some [py "second"] |}]
  /\ py "second" <> _UNKNOWN_SYMBOL.
Proof.
  unfold in_region. cbn [start_address end_address late_region example_object].
  repeat split; try lia; try (vm_compute; reflexivity); discriminate.
Qed.

(** C2 as stated fails: with two regions over the same range, the table
    holds the symbol of the second one. *)
Lemma first_region_does_not_win :
  in_region first_region 0x1800 /\ in_region second_region 0x1800
  /\ symbol_at first_region 0x1800 = Some {| address := 0; symbol := py "first" |}
  /\ resolve_symbols_batch {| _objects := [first_region; second_region] |} {[0x1800]}
       false false !! 0x1800
     = Some (py "second").
Proof.
  unfold in_region. cbn [start_address end_address first_region second_region example_object].
  repeat split; try lia; vm_compute; reflexivity.
Qed.

Lemma last_matching_region_wins_witness :
  resolve_symbols_batch {| _objects := [first_region; second_region] |} {[0x1800]}
    false true !! 0x1800
  = Some (render false true second_region {| address := 0; symbol := py "second" |}).
Proof.
  apply (last_matching_region_wins false true {| _objects := [first_region; second_region] |}
           {[0x1800]} 0x1800 [first_region] second_region [] 0%nat).
  - reflexivity.
  - apply example_object_wf. repeat constructor.
  - constructor.
  - set_solver.
  - unfold in_region. cbn. lia.
  - split; [reflexivity|]. split; [vm_compute; discriminate|].
    intros j sym' Hj Hlt. destruct j as [|j]; [lia|discriminate].
  - intros o Ho. now apply elem_of_nil in Ho.
Defined.

(** ** The memory-map model *)

Lemma insert_by_address_In s l x :
  In x (insert_by_address s l) -> x = s \/ In x l.
Proof.
  induction l as [|t l IH]; simpl.
  - intros [<-|[]]. now left.
  - destruct (address s <=? address t); simpl; intros Hx.
    + destruct Hx as [<-|Hx]; [now left|now right].
    + destruct Hx as [<-|Hx]; [right; now left|].
      destruct (IH Hx) as [->|Hl]; [now left|right; now right].
Qed.

Lemma insert_by_address_sorted s l :
  StronglySorted Z.le (List.map address l) ->
  StronglySorted Z.le (List.map address (insert_by_address s l)).
Proof.
  induction l as [|t l IH]; intros Hs; simpl.
  - repeat constructor.
  - simpl in Hs. apply StronglySorted_inv in Hs as [Hs Hall].
    destruct (address s <=? address t) eqn:E.
    + apply Z.leb_le in E. simpl. constructor; [constructor; assumption|].
      constructor; [assumption|].
      eapply List.Forall_impl; [|exact Hall]. simpl. intros; lia.
    + apply Z.leb_gt in E. simpl. constructor; [now apply IH|].
      rewrite List.Forall_forall. intros a Ha.
      apply in_map_iff in Ha as (x & <- & Hx).
      apply insert_by_address_In in Hx as [->|Hx]; [lia|].
      rewrite List.Forall_forall in Hall. apply Hall. now apply in_map.
Qed.

(** [sorted(...)] returns the symbols in ascending order of address. *)
Lemma sorted_by_address_sorted l :
  StronglySorted Z.le (List.map address (sorted_by_address l)).
Proof.
  unfold sorted_by_address. induction l as [|s l IH]; simpl.
  - constructor.
  - now apply insert_by_address_sorted.
Qed.

Lemma for_append_Forall {A B} (P : B -> Prop) (body : A -> result (option B)) l acc r :
  (forall a b, body a = Ok (Some b) -> P b) ->
  Forall P acc -> for_append body l acc = Ok r -> Forall P r.
Proof.
  intros Hbody. revert acc.
  induction l as [|a l IH]; intros acc Hacc; simpl.
  - now intros [= <-].
  - destruct (body a) as [[b|]|e] eqn:E; cbn [mbind result_bind]; [| |discriminate].
    + apply IH. apply Forall_app. split; [assumption|].
      constructor; [|constructor]. eapply Hbody, E.
    + now apply IH.
Qed.

Section MemoryMap.

Context `{Host}.

Variable executable : Path.
Variable executable_only : bool.

Lemma find_symbols_sorted filepath l :
  _find_object_all_symbols_sorted filepath = Ok l ->
  StronglySorted Z.le (List.map address l).
Proof.
  unfold _find_object_all_symbols_sorted. intros Hl.
  destruct (run_nm false filepath); cbn [mbind result_bind] in Hl; [|discriminate].
  match type of Hl with
  | context [mbind _ ?m] => destruct m; cbn [mbind result_bind] in Hl; [|discriminate]
  end.
  match type of Hl with
  | context [mbind _ ?m] => destruct m; cbn [mbind result_bind] in Hl; [|discriminate]
  end.
  injection Hl as <-. apply sorted_by_address_sorted.
Qed.

(** Every object appended by the loop of [__init__] has its symbols
    sorted and its address list in step with them. *)
Lemma init_line_wf line obj :
  init_line executable executable_only line = Ok (Some obj) -> object_wf obj.
Proof.
  unfold init_line. intros Hl.
  destruct (startswith (py "build=") line); [discriminate|].
  destruct (index (split_ws (strip line)) 0); cbn [mbind result_bind] in Hl; [|discriminate].
  destruct (split_ws (strip line)) as [|? [|perms [|off [|? [|? [|path [|? ?]]]]]]];
    try discriminate.
  destruct (negb (contains_char 120 perms)); [discriminate|].
  cbv zeta in Hl.
  destruct (executable_only && _); [discriminate|].
  destruct (negb (path_exists _) || _); [discriminate|].
  destruct (_find_object_all_symbols_sorted _) as [syms|] eqn:Esyms;
    cbn [mbind result_bind] in Hl; [|discriminate].
  repeat match type of Hl with
         | context [mbind _ ?m] =>
             destruct m; cbn [mbind result_bind] in Hl; [|discriminate]
         end.
  injection Hl as <-. split; [reflexivity|].
  cbn [all_addrs_sorted]. eapply find_symbols_sorted, Esyms.
Qed.

Lemma init_objects_wf proc_mapped_objects self :
  SymbolResolver_init executable proc_mapped_objects executable_only = Ok self ->
  Forall object_wf (_objects self).
Proof.
  unfold SymbolResolver_init. intros Hinit.
  destruct (for_append _ _ _) as [objs|] eqn:E; cbn [mbind result_bind] in Hinit;
    [|discriminate].
  injection Hinit as <-. cbn [_objects].
  eapply for_append_Forall; [|constructor|exact E].
  intros line obj. apply init_line_wf.
Qed.

(** The lines the loop skips without an error: a build-id line, a line
    with at least one field but not six, a line of six fields whose
    permissions lack the flag [x], and a line whose file is missing or
    unreadable. *)
Lemma init_line_skips line :
  (startswith (py "build=") line = true ->
   init_line executable executable_only line = Ok None)
  /\ (split_ws (strip line) <> [] -> length (split_ws (strip line)) <> 6%nat ->
      init_line executable executable_only line = Ok None)
  /\ (forall f0 perms off dev inode path,
        startswith (py "build=") line = false ->
        split_ws (strip line) = [f0; perms; off; dev; inode; path] ->
        let is_exe := bool_decide (path_name (mkPath path) = path_name executable) in
        let obj_path := if is_exe then executable else mkPath path in
        contains_char 120 perms = false
        \/ path_exists obj_path = false
        \/ access_R_OK obj_path = false ->
        init_line executable executable_only line = Ok None).
Proof.
  split; [|split].
  - unfold init_line. now intros ->.
  - unfold init_line.
    intros Hne Hlen. destruct (startswith (py "build=") line); [reflexivity|].
    destruct (split_ws (strip line)) as [|? [|? [|? [|? [|? [|? [|? ?]]]]]]];
      try reflexivity; [congruence|now contradict Hlen].
  - intros f0 perms off dev inode path Hb Hf is_exe obj_path Hskip.
    unfold init_line. rewrite Hb, Hf.
    cbn [index lookup list_lookup mbind result_bind]. cbv zeta.
    fold is_exe. fold obj_path.
    destruct (contains_char 120 perms); cbn [negb]; [|reflexivity].
    destruct (executable_only && negb is_exe); [reflexivity|].
    destruct Hskip as [Hx|[He|Ha]]; [discriminate| |].
    + now rewrite He.
    + rewrite Ha. now rewrite orb_true_r.
Qed.

(** A line without any field, met by the loop, raises [IndexError]:
    [fields[0]] is read before the number of fields is tested. *)
Lemma init_line_blank line :
  startswith (py "build=") line = false -> split_ws (strip line) = [] ->
  init_line executable executable_only line = Raise IndexError.
Proof. unfold init_line. now intros -> ->. Qed.

(** C8 fails on the source for a line without fields: on a memory map with
    an empty line between two mappings, [__init__] raises [IndexError]
    instead of skipping the line, on every host. *)
Theorem blank_line_raises_IndexError :
  SymbolResolver_init executable maps_with_blank_line executable_only = Raise IndexError.
Proof.
  unfold SymbolResolver_init.
  replace (splitlines (strip maps_with_blank_line))
    with [py "00400000-00401000 r--p 00000000 08:01 1 /bin/app"; [];
          py "00401000-00402000 r-xp 00001000 08:01 1 /bin/app"]
    by (vm_compute; reflexivity).
  cbn [for_append].
  replace (init_line executable executable_only
             (py "00400000-00401000 r--p 00000000 08:01 1 /bin/app")) with (Ok (@None MappedObject)).
  2:{ symmetry. apply init_line_skips with (f0 := py "00400000-00401000") (perms := py "r--p")
        (off := py "00000000") (dev := py "08:01") (inode := py "1") (path := py "/bin/app");
      [reflexivity|vm_compute; reflexivity|left; reflexivity]. }
  cbn [mbind result_bind].
  rewrite (init_line_blank []) by reflexivity. reflexivity.
Qed.

End MemoryMap.

(** ** Symbol clean-up *)

Lemma rmb_closed b e s r d :
  d < 0 -> rmb_result (fold_left (rmb_step b e) s {| rmb_result := r; rmb_depth := d |}) = r.
Proof.
  revert r d. induction s as [|c s IH]; intros r d Hd; [reflexivity|].
  cbn [fold_left]. unfold rmb_step at 2. cbn [rmb_result rmb_depth].
  destruct (c =? b); [now apply IH|].
  destruct (c =? e); [apply IH; lia|].
  replace (d =? 0) with false by (symmetry; apply Z.eqb_neq; lia).
  now apply IH.
Qed.

(** What [_remove_matching_brackets] computes: the text before the first
    closing bracket, without its opening brackets. *)
Lemma remove_matching_brackets_is s b e :
  b <> e ->
  _remove_matching_brackets s b e
  = List.filter (fun c => negb (c =? b)) (before_first e s).
Proof.
  intros Hbe. unfold _remove_matching_brackets.
  enough (forall r,
             rmb_result (fold_left (rmb_step b e) s {| rmb_result := r; rmb_depth := 0 |})
             = r ++ List.filter (fun c => negb (c =? b)) (before_first e s)) as Hgen
    by apply (Hgen []).
  induction s as [|c s IH]; intros r; [now rewrite app_nil_r|].
  cbn [fold_left before_first]. unfold rmb_step at 2. cbn [rmb_result rmb_depth].
  destruct (c =? b) eqn:Eb.
  - apply Z.eqb_eq in Eb. subst c.
    replace (b =? e) with false by (symmetry; now apply Z.eqb_neq).
    cbn [List.filter]. rewrite Z.eqb_refl. cbn [negb]. apply IH.
  - destruct (c =? e).
    + cbn [List.filter]. rewrite app_nil_r. apply rmb_closed. lia.
    + cbn [Z.eqb List.filter]. rewrite Eb. cbn [negb].
      rewrite IH, <- app_assoc. reflexivity.
Qed.

(** C7 fails on the source: the depth of [_remove_matching_brackets] never
    rises, so the text inside the first bracket group is kept;
    ["foo(bar)"] becomes ["foobar"], not ["foo"]. *)
Theorem cleanup_symbol_keeps_bracket_content :
  _cleanup_symbol (py "foo(bar)") = py "foobar"
  /\ _cleanup_symbol (py "foo(bar)") <> py "foo".
Proof. split; [vm_compute; reflexivity|vm_compute; discriminate]. Qed.

(** ** Folding *)

Lemma pop_unknown_step l :
  pop_unknown l = if trailing_unknown l then pop_unknown (removelast l) else l.
Proof.
  funelim (pop_unknown l);
    match goal with E : trailing_unknown _ = _ |- _ => rewrite E end; reflexivity.
Qed.

Lemma trailing_unknown_snoc (l : list str) x :
  trailing_unknown (l ++ [x])
  = negb (bool_decide (l = [])) && bool_decide (x = _UNKNOWN_SYMBOL).
Proof.
  unfold trailing_unknown, len. rewrite length_app, last_last. cbn [length].
  f_equal. destruct l; [reflexivity|].
  cbn [length]. rewrite bool_decide_eq_false_2 by discriminate.
  apply Z.ltb_lt. lia.
Qed.

(** The trimming loop removes a run of unknown frames at the end and
    stops at a frame that is known or is the only one left. *)
Lemma pop_unknown_run (kept : list str) k :
  kept <> [] ->
  (length kept = 1%nat \/ List.last kept [] <> _UNKNOWN_SYMBOL) ->
  pop_unknown (kept ++ repeat _UNKNOWN_SYMBOL k) = kept.
Proof.
  intros Hne Hstop. induction k as [|k IH].
  - cbn [repeat]. rewrite app_nil_r, pop_unknown_step.
    replace (trailing_unknown kept) with false; [reflexivity|].
    symmetry. unfold trailing_unknown, len.
    destruct Hstop as [->|Hlast]; [reflexivity|].
    rewrite (bool_decide_eq_false_2 _ Hlast). apply andb_false_r.
  - cbn [repeat]. rewrite repeat_cons, app_assoc, pop_unknown_step, trailing_unknown_snoc.
    rewrite removelast_last.
    rewrite bool_decide_eq_false_2, bool_decide_eq_true_2; [exact IH|reflexivity|].
    intros E. apply app_eq_nil in E as [? _]. contradiction.
Qed.

Lemma pop_unknown_decompose (l : list str) :
  l <> [] ->
  exists (kept : list str) k,
    l = kept ++ repeat _UNKNOWN_SYMBOL k /\ kept <> []
    /\ (length kept = 1%nat \/ List.last kept [] <> _UNKNOWN_SYMBOL).
Proof.
  induction l as [|x l IH] using rev_ind; [congruence|]. intros _.
  destruct (decide (x = _UNKNOWN_SYMBOL)) as [->|Hx].
  - destruct l as [|y l].
    + exists [_UNKNOWN_SYMBOL], 0%nat. repeat split; [discriminate|now left].
    + destruct IH as (kept & k & Hl & Hne & Hstop); [discriminate|].
      exists kept, (S k). cbn [repeat]. rewrite Hl, repeat_cons, app_assoc. auto.
  - exists (l ++ [x]), 0%nat. cbn [repeat]. rewrite app_nil_r, last_last.
    repeat split; [|now right].
    intros E. apply app_eq_nil in E as [_ ?]. discriminate.
Qed.

(** C6: the key of a sample with symbols [syms] (leaf first, not empty)
    is the join with [";"] of the reversed sequence without its trailing
    unknown frames, one frame at least being kept; the sample is counted
    under that key; three known frames [sA; sB; sC] give ["sC;sB;sA"]. *)
Theorem fold_key_reverses_and_trims (syms : list str) :
  syms <> [] ->
  (exists (kept : list str) k,
     rev syms = kept ++ repeat _UNKNOWN_SYMBOL k /\ kept <> []
     /\ (length kept = 1%nat \/ List.last kept [] <> _UNKNOWN_SYMBOL)
     /\ fold_key syms = join (py ";") kept)
  /\ (forall (kept : list str) k,
        rev syms = kept ++ repeat _UNKNOWN_SYMBOL k -> kept <> [] ->
        (length kept = 1%nat \/ List.last kept [] <> _UNKNOWN_SYMBOL) ->
        fold_key syms = join (py ";") kept)
  /\ (forall sA sB sC,
        syms = [sA; sB; sC] ->
        sA <> _UNKNOWN_SYMBOL -> sB <> _UNKNOWN_SYMBOL -> sC <> _UNKNOWN_SYMBOL ->
        fold_key syms = sC ++ py ";" ++ sB ++ py ";" ++ sA)
  /\ (forall period to_microsecond stacks st,
        symbols st = Some syms ->
        collect_stack period to_microsecond stacks st
        = <[fold_key syms := default 0 (stacks !! fold_key syms)
                             + sample_weight period to_microsecond st]> stacks).
Proof.
  intros Hne.
  assert (forall (kept : list str) k,
             rev syms = kept ++ repeat _UNKNOWN_SYMBOL k -> kept <> [] ->
             (length kept = 1%nat \/ List.last kept [] <> _UNKNOWN_SYMBOL) ->
             fold_key syms = join (py ";") kept) as Hkey.
  { intros kept k Hrev Hk Hstop. unfold fold_key. cbv zeta.
    rewrite Hrev, pop_unknown_run by assumption. reflexivity. }
  split; [|split; [exact Hkey|split]].
  - destruct (pop_unknown_decompose (rev syms)) as (kept & k & Hrev & Hk & Hstop).
    { intros E. apply (f_equal (@rev _)) in E. rewrite rev_involutive in E. now subst. }
    exists kept, k. repeat split; try assumption. now apply (Hkey kept k).
  - intros sA sB sC -> HA HB HC.
    rewrite (Hkey [sC; sB; sA] 0%nat); [reflexivity|reflexivity|discriminate|now right].
  - intros period to_microsecond stacks st Hst. unfold collect_stack. rewrite Hst.
    destruct syms; [congruence|reflexivity].
Qed.

Lemma fold_key_reverses_and_trims_witness :
  fold_key [py "???"; py "leaf"; py "mid"; py "main"] = py "main;mid;leaf".
Proof.
  refine (proj1 (proj2 (fold_key_reverses_and_trims
                          [py "???"; py "leaf"; py "mid"; py "main"] _))
            [py "main"; py "mid"; py "leaf"] 1%nat _ _ _).
  - discriminate.
  - reflexivity.
  - discriminate.
  - right. vm_compute. discriminate.
Defined.

(** ** Weights *)

Lemma collect_stack_lookup (period : Z) (to_microsecond : bool) (stacks : gmap str Z) st key :
  default 0 (collect_stack period to_microsecond stacks st !! key)
  = default 0 (stacks !! key) + contribution period to_microsecond key st.
Proof.
  unfold collect_stack, contribution.
  destruct (symbols st) as [[|s l]|]; try lia.
  fold (sample_weight period to_microsecond st).
  destruct (decide (fold_key (s :: l) = key)) as [<-|Hne].
  - rewrite lookup_insert_eq, bool_decide_eq_true_2 by reflexivity. reflexivity.
  - rewrite lookup_insert_ne, bool_decide_eq_false_2 by assumption. lia.
Qed.

(** The table after all samples: each entry is the sum of what the
    samples folded to its key contribute. *)
Lemma collect_total (period : Z) (to_microsecond : bool) (sts : list Stacktrace)
    (stacks : gmap str Z) key :
  default 0 (fold_left (collect_stack period to_microsecond) sts stacks !! key)
  = default 0 (stacks !! key)
    + foldr Z.add 0 (List.map (contribution period to_microsecond key) sts).
Proof.
  revert stacks. induction sts as [|st sts IH]; intros stacks; cbn [fold_left List.map foldr].
  - lia.
  - rewrite IH, collect_stack_lookup. lia.
Qed.

(** C9: a folded sample adds its count to the entry of its key, or its
    count times the sampling period when microseconds are requested, and
    changes no other entry; with a period of 1000 a sample of weight 5
    adds 5, respectively 5000. *)
Theorem sample_weight_added (period : Z) (to_microsecond : bool) (stacks : gmap str Z)
    (st : Stacktrace) (syms : list str) :
  symbols st = Some syms -> syms <> [] ->
  let stacks' := collect_stack period to_microsecond stacks st in
  default 0 (stacks' !! fold_key syms)
  = default 0 (stacks !! fold_key syms)
    + (if to_microsecond then sample_count st * period else sample_count st)
  /\ (forall key, key <> fold_key syms -> stacks' !! key = stacks !! key)
  /\ (sample_count st = 5 ->
      default 0 (collect_stack 1000 false stacks st !! fold_key syms)
      = default 0 (stacks !! fold_key syms) + 5
      /\ default 0 (collect_stack 1000 true stacks st !! fold_key syms)
         = default 0 (stacks !! fold_key syms) + 5000).
Proof.
  intros Hst Hne. cbv zeta.
  assert (forall p us, collect_stack p us stacks st
                       = <[fold_key syms := default 0 (stacks !! fold_key syms)
                                            + sample_weight p us st]> stacks) as Hc.
  { intros p us. unfold collect_stack. rewrite Hst. destruct syms; [congruence|reflexivity]. }
  rewrite !Hc. split; [|split].
  - now rewrite lookup_insert_eq.
  - intros key Hkey. now rewrite lookup_insert_ne.
  - intros Hw. rewrite !lookup_insert_eq. unfold sample_weight. rewrite Hw. split; reflexivity.
Qed.

Lemma sample_weight_added_witness :
  default 0 (collect_stack 1000 true {[py "main;f" := 7]}
               {| sample_count := 5; pcs := [1; 2]; symbols := Some [py "f"; py "main"] |}
             !! fold_key [py "f"; py "main"])
  = default 0 (({[py "main;f" := 7]} : gmap str Z) !! fold_key [py "f"; py "main"]) + 5000.
Proof.
  refine (proj2 (proj2 (proj2 (sample_weight_added 1000 true {[py "main;f" := 7]}
            {| sample_count := 5; pcs := [1; 2]; symbols := Some [py "f"; py "main"] |}
            [py "f"; py "main"] _ _)) _)).
  - reflexivity.
  - discriminate.
  - reflexivity.
Defined.

(** ** Samples without counters *)

Section EmptySamples.

Context `{Host}.

Lemma collect_stack_no_counters (period : Z) (to_microsecond : bool) (stacks : gmap str Z)
    (m : gmap Z str) (w : Z) :
  collect_stack period to_microsecond stacks (assign_symbols m (sample w [])) = stacks.
Proof. reflexivity. Qed.

(** C10: a record with a non-zero weight and no counter is parsed as a
    sample; the loop that collects the stacks passes over it, so the
    table is the one obtained without the sample, and a profile with
    only such a sample gives the empty table (no entry for the empty
    key). *)
Theorem empty_sample_parsed_then_skipped order fits resolver p w sts1 sts2 pc0 text s
    simplify_symbol annotate_libname to_microsecond :
  word p -> word w -> w <> 0 -> Forall sample_ok sts1 -> Forall sample_ok sts2 ->
  word pc0 -> utf8_decode text = Ok s ->
  _parse_profiler_result order fits
    (pack order [0; 3; 0; p; 0] ++ flat_map (pack_record order) sts1 ++ pack order [w; 0]
     ++ flat_map (pack_record order) sts2 ++ pack order [0; 1; pc0] ++ text)
  = Ok {| sampling_period_in_us := p; proc_mapped_objects := s;
          stacktraces := sts1 ++ sample w [] :: sts2 |}
  /\ process_stacks resolver
       {| sampling_period_in_us := p; proc_mapped_objects := s;
          stacktraces := sts1 ++ sample w [] :: sts2 |}
       simplify_symbol annotate_libname to_microsecond
     = process_stacks resolver
         {| sampling_period_in_us := p; proc_mapped_objects := s;
            stacktraces := sts1 ++ sts2 |}
         simplify_symbol annotate_libname to_microsecond
  /\ process_stacks resolver
       {| sampling_period_in_us := p; proc_mapped_objects := s;
          stacktraces := [sample w []] |}
       simplify_symbol annotate_libname to_microsecond
     = ∅.
Proof.
  intros Hp Hw Hnz Hs1 Hs2 Hpc Htext. split; [|split].
  - assert (sample_ok (sample w [])) as Hok
      by (unfold sample_ok, sample, word, len in *; cbn; repeat split; try lia; constructor).
    pose proof (parse_well_formed order fits p (sts1 ++ sample w [] :: sts2) pc0 text s Hp
                  (proj2 (Forall_app _ _ _) (conj Hs1 (Forall_cons_2 _ _ _ Hok Hs2))) Hpc Htext)
      as Hparse.
    rewrite flat_map_app in Hparse. cbn [flat_map] in Hparse.
    rewrite <- !app_assoc in Hparse. exact Hparse.
  - unfold process_stacks. cbn [stacktraces sampling_period_in_us].
    rewrite !map_app, !concat_app. cbn [List.map concat pcs sample app].
    rewrite !fold_left_app. cbn [fold_left].
    rewrite (collect_stack_no_counters p to_microsecond _ _ w). reflexivity.
  - reflexivity.
Qed.

End EmptySamples.

Lemma empty_sample_parsed_then_skipped_witness :
  _parse_profiler_result LittleEndian roomy
    (pack LittleEndian [0; 3; 0; 1000; 0]
     ++ flat_map (pack_record LittleEndian) [sample 5 [4096]]
     ++ pack LittleEndian [7; 0]
     ++ flat_map (pack_record LittleEndian) []
     ++ pack LittleEndian [0; 1; 0] ++ [])
  = Ok {| sampling_period_in_us := 1000; proc_mapped_objects := [];
          stacktraces := [sample 5 [4096]] ++ sample 7 [] :: [] |}.
Proof.
  refine (proj1 (empty_sample_parsed_then_skipped (H := table_host []) LittleEndian roomy
                   {| _objects := [] |} 1000 7 [sample 5 [4096]] [] 0 [] []
                   false false false _ _ _ _ _ _ _)).
  - unfold word; lia.
  - unfold word; lia.
  - lia.
  - samples.
  - constructor.
  - unfold word; lia.
  - reflexivity.
Defined.

(** * Further properties of the code *)

(** ** The parser, from the bytes to the words *)

Lemma byte_of_val b : byte_of (byte_val b) = b.
Proof.
  unfold byte_of, byte_val. rewrite N2Z.id, Byte.of_to_N. reflexivity.
Qed.

Lemma byte_val_range b : 0 <= byte_val b < 256.
Proof.
  unfold byte_val. pose proof (Byte.to_N_bounded b). lia.
Qed.

Lemma le_uint_range bs : 0 <= le_uint bs < 256 ^ Z.of_nat (length bs).
Proof.
  induction bs as [|b bs IH]; cbn [le_uint length].
  - simpl. lia.
  - pose proof (byte_val_range b). rewrite Nat2Z.inj_succ, Z.pow_succ_r by lia. lia.
Qed.

Lemma le_bytes_le_uint bs : le_bytes (length bs) (le_uint bs) = bs.
Proof.
  induction bs as [|b bs IH]; [reflexivity|].
  cbn [length le_bytes le_uint].
  pose proof (byte_val_range b) as Hb.
  replace ((byte_val b + 256 * le_uint bs) mod 256) with (byte_val b)
    by (rewrite (Z.mul_comm 256), Z.mod_add by lia; symmetry; now apply Z.mod_small).
  replace ((byte_val b + 256 * le_uint bs) / 256) with (le_uint bs)
    by (rewrite (Z.mul_comm 256), Z.div_add by lia;
        rewrite (Z.div_small (byte_val b)) by lia; lia).
  now rewrite byte_of_val, IH.
Qed.

Lemma pack_unpack_Q order bs :
  length bs = 8%nat -> pack_Q order (unpack_Q order bs) = bs /\ word (unpack_Q order bs).
Proof.
  intros Hlen. destruct order; unfold pack_Q, unpack_Q, word.
  - pose proof (le_uint_range bs) as Hr. rewrite Hlen in Hr.
    rewrite <- Hlen at 1. rewrite le_bytes_le_uint.
    change (256 ^ Z.of_nat 8) with (2 ^ 64) in Hr. auto.
  - pose proof (le_uint_range (rev bs)) as Hr. rewrite length_rev, Hlen in Hr.
    replace 8%nat with (length (rev bs)) at 1 by (now rewrite length_rev).
    rewrite le_bytes_le_uint, rev_involutive.
    change (256 ^ Z.of_nat 8) with (2 ^ 64) in Hr. auto.
Qed.

Lemma pack_unpack_Qs order k buf :
  length buf = (8 * k)%nat ->
  pack order (unpack_Qs order k buf) = buf
  /\ Forall word (unpack_Qs order k buf)
  /\ length (unpack_Qs order k buf) = k.
Proof.
  revert buf. induction k as [|k IH]; intros buf Hlen.
  - destruct buf; [|discriminate]. repeat split. constructor.
  - cbn [unpack_Qs pack flat_map length].
    destruct (pack_unpack_Q order (firstn 8 buf)) as [Hq Hw];
      [rewrite length_firstn; lia|].
    destruct (IH (skipn 8 buf)) as (Hp & Hws & Hl); [rewrite length_skipn; lia|].
    fold (pack order (unpack_Qs order k (skipn 8 buf))).
    rewrite Hq, Hp, firstn_skipn, Hl. repeat split. now constructor.
Qed.

(** What a successful read returns. *)
Lemma read_slots_inv order fits n f ws f' :
  read_slots order fits n f = Ok (ws, f') ->
  0 <= n /\ len ws = n /\ Forall word ws /\ f = pack order ws ++ f'.
Proof.
  unfold read_slots, file_read.
  destruct (Z.of_nat (length (firstn (Z.to_nat (8 * n)) f)) =? 8 * n) eqn:E; [|discriminate].
  apply Z.eqb_eq in E. intros [= <- <-].
  destruct (pack_unpack_Qs order (Z.to_nat n) (firstn (Z.to_nat (8 * n)) f))
    as (Hp & Hws & Hl); [lia|].
  unfold len. rewrite Hl, Hp, firstn_skipn. repeat split; try lia. assumption.
Qed.

(** X1: whatever the bytes of the file, a successful [read_slots(n)]
    returns exactly [n] words, each in the range of an unsigned 64-bit
    integer, and they are the [8 * n] bytes at the head of the file; the
    rest of the file is left for the next read. *)
Theorem read_slots_sound order fits n f ws f' :
  read_slots order fits n f = Ok (ws, f') ->
  0 <= n /\ len ws = n /\ Forall word ws /\ f = pack order ws ++ f'.
Proof. apply read_slots_inv. Qed.

Lemma read_slots_sound_witness :
  0 <= 2 /\ len [258; 1] = 2 /\ Forall word [258; 1]
  /\ [x02; x01; x00; x00; x00; x00; x00; x00; x01; x00; x00; x00; x00; x00; x00; x00; xff]
     = pack LittleEndian [258; 1] ++ [xff].
Proof.
  apply (read_slots_sound LittleEndian roomy 2
           [x02; x01; x00; x00; x00; x00; x00; x00; x01; x00; x00; x00; x00; x00; x00; x00; xff]).
  vm_compute. reflexivity.
Defined.

Section ParserSoundness.

Variable order : byteorder.
Variable fits : Z -> bool.

Lemma read_record_sound f r f' :
  read_record order fits f = Ok (r, f') ->
  match r with
  | Some st => sample_ok st /\ f = pack_record order st ++ f'
  | None => exists pc0, word pc0 /\ f = pack order [0; 1; pc0] ++ f'
  end.
Proof.
  unfold read_record. intros Hr.
  destruct (read_slots order fits 2 f) as [[ws f1]|] eqn:E1; cbn [mbind result_bind] in Hr;
    [|discriminate].
  apply read_slots_inv in E1 as (_ & Hlen & Hws & ->).
  destruct ws as [|w [|n [|? ?]]]; try discriminate.
  destruct (read_slots order fits n f1) as [[counters f2]|] eqn:E2; cbn [mbind result_bind] in Hr;
    [|discriminate].
  apply read_slots_inv in E2 as (_ & Hlen2 & Hcs & ->).
  apply Forall_cons in Hws as [Hw Hws]. apply Forall_cons in Hws as [Hn _].
  destruct (w =? 0) eqn:Ew.
  - destruct (n =? 1) eqn:En; [|discriminate]. injection Hr as <- <-.
    apply Z.eqb_eq in Ew, En. subst w.
    assert (length counters = 1%nat) as Hone by (unfold len in Hlen2; lia).
    destruct counters as [|pc0 [|? ?]]; try discriminate. rewrite En.
    exists pc0. split; [now apply Forall_cons in Hcs as [? _]|].
    unfold pack. cbn [flat_map]. now rewrite <- !app_assoc.
  - injection Hr as <- <-. apply Z.eqb_neq in Ew.
    split.
    + unfold sample_ok. cbn [sample_count pcs symbols]. rewrite Hlen2. auto.
    + unfold pack_record, pack. cbn [sample_count pcs flat_map]. rewrite Hlen2.
      now rewrite <- !app_assoc.
Qed.

Lemma read_records_sound f acc sts f' :
  read_records order fits f acc = Ok (sts, f') ->
  exists new pc0,
    sts = acc ++ new /\ Forall sample_ok new /\ word pc0
    /\ f = flat_map (pack_record order) new ++ pack order [0; 1; pc0] ++ f'.
Proof.
  remember (length f) as k eqn:Hk. revert f acc Hk.
  induction k as [k IH] using lt_wf_ind. intros f acc -> Hr.
  rewrite read_records_step in Hr.
  destruct (read_record order fits f) as [[[st|] f1]|] eqn:E; [| |discriminate].
  - pose proof (read_record_sound _ _ _ E) as [Hok ->].
    assert (length f1 < length (pack_record order st ++ f1))%nat as Hlt
      by (rewrite length_app; unfold pack_record; rewrite length_pack; cbn [length]; lia).
    destruct (IH _ Hlt f1 (acc ++ [st]) eq_refl Hr) as (new & pc0 & -> & Hnew & Hpc & ->).
    exists (st :: new), pc0. rewrite <- app_assoc. cbn [flat_map app].
    rewrite <- app_assoc. repeat split; auto; apply Hpc.
  - injection Hr as <- <-.
    pose proof (read_record_sound _ _ _ E) as (pc0 & Hpc & ->).
    exists [], pc0. rewrite app_nil_r. repeat split; auto; apply Hpc.
Qed.

(** X2: the parser accepts nothing but the layout it is written for: when
    [_parse_profiler_result] returns, the file is the five header words
    [0, 3, 0, period, 0], then the returned samples as records (each with
    a non-zero weight), then a trailer [0, 1, pc], then the bytes whose
    UTF-8 decoding is the returned memory map. *)
Theorem parse_sound f r :
  _parse_profiler_result order fits f = Ok r ->
  word (sampling_period_in_us r) /\ Forall sample_ok (stacktraces r)
  /\ exists pc0 text,
       word pc0 /\ utf8_decode text = Ok (proc_mapped_objects r)
       /\ f = pack order [0; 3; 0; sampling_period_in_us r; 0]
              ++ flat_map (pack_record order) (stacktraces r)
              ++ pack order [0; 1; pc0] ++ text.
Proof.
  unfold _parse_profiler_result. intros Hr.
  destruct (read_slots order fits 5 f) as [[ws f1]|] eqn:E1; cbn [mbind result_bind] in Hr;
    [|discriminate].
  apply read_slots_inv in E1 as (_ & _ & Hws & ->).
  destruct ws as [|c [|s [|v [|p [|pad [|? ?]]]]]]; try discriminate.
  destruct ((c =? 0) && (s =? 3) && (v =? 0) && (pad =? 0)) eqn:Eh; [|discriminate].
  rewrite !andb_true_iff, !Z.eqb_eq in Eh. destruct Eh as [[[-> ->] ->] ->].
  destruct (read_records order fits f1 []) as [[sts f2]|] eqn:E2; cbn [mbind result_bind] in Hr;
    [|discriminate].
  destruct (utf8_decode f2) as [text|] eqn:E3; cbn [mbind result_bind] in Hr; [|discriminate].
  injection Hr as <-. cbn [sampling_period_in_us stacktraces proc_mapped_objects].
  apply read_records_sound in E2 as (new & pc0 & -> & Hnew & Hpc & ->).
  cbn [app]. split; [|split; [assumption|]].
  - do 3 apply Forall_cons in Hws as [_ Hws]. now apply Forall_cons in Hws as [? _].
  - exists pc0, f2. repeat split; auto; apply Hpc.
Qed.

End ParserSoundness.

Lemma parse_sound_witness :
  word 1000 /\ Forall sample_ok [sample 5 [4096; 8192]]
  /\ exists pc0 text,
       word pc0 /\ utf8_decode text = Ok (py "ab")
       /\ pack LittleEndian [0; 3; 0; 1000; 0; 5; 2; 4096; 8192; 0; 1; 0] ++ [x61; x62]
          = pack LittleEndian [0; 3; 0; 1000; 0]
            ++ flat_map (pack_record LittleEndian) [sample 5 [4096; 8192]]
            ++ pack LittleEndian [0; 1; pc0] ++ text.
Proof.
  apply (parse_sound LittleEndian roomy
           (pack LittleEndian [0; 3; 0; 1000; 0; 5; 2; 4096; 8192; 0; 1; 0] ++ [x61; x62])
           {| sampling_period_in_us := 1000; proc_mapped_objects := py "ab";
              stacktraces := [sample 5 [4096; 8192]] |}).
  vm_compute. reflexivity.
Defined.

(** ** Symbol clean-up as the code computes it *)

Lemma before_first_filter b e s :
  b <> e ->
  before_first e (List.filter (fun c => negb (c =? b)) s)
  = List.filter (fun c => negb (c =? b)) (before_first e s).
Proof.
  intros Hbe. induction s as [|c s IH]; [reflexivity|].
  cbn [List.filter before_first].
  destruct (Z.eqb_spec c b) as [->|Hcb]; cbn [negb].
  - replace (b =? e) with false by (symmetry; now apply Z.eqb_neq).
    cbn [List.filter]. rewrite Z.eqb_refl. exact IH.
  - cbn [before_first]. destruct (c =? e); [reflexivity|].
    cbn [List.filter]. replace (c =? b) with false by (symmetry; now apply Z.eqb_neq).
    cbn [negb]. now rewrite IH.
Qed.

Lemma before_first_thrice s :
  before_first 62 (before_first 93 (before_first 41 s)) = before_any is_close_bracket s.
Proof.
  induction s as [|c s IH]; [reflexivity|].
  cbn [before_first before_any]. unfold is_close_bracket.
  destruct (c =? 41); [reflexivity|]. cbn [before_first].
  destruct (c =? 93); [reflexivity|]. cbn [before_first].
  destruct (c =? 62); [reflexivity|]. cbn [orb]. now rewrite IH.
Qed.

Lemma filter_thrice s :
  List.filter (fun c => negb (c =? 60))
    (List.filter (fun c => negb (c =? 91)) (List.filter (fun c => negb (c =? 40)) s))
  = List.filter (fun c => negb (is_open_bracket c)) s.
Proof.
  induction s as [|c s IH]; [reflexivity|].
  cbn [List.filter]. unfold is_open_bracket.
  destruct (c =? 40); cbn [negb orb]; [exact IH|]. cbn [List.filter].
  destruct (c =? 91); cbn [negb orb]; [exact IH|]. cbn [List.filter].
  destruct (c =? 60); cbn [negb orb]; [exact IH|]. now rewrite IH.
Qed.

(** The three passes of [_cleanup_symbol], put together. *)
Lemma cleanup_symbol_form s :
  _cleanup_symbol s
  = strip_chars (py ":")
      (List.filter (fun c => negb (is_open_bracket c)) (before_any is_close_bracket s)).
Proof.
  unfold _cleanup_symbol. cbv zeta.
  rewrite !remove_matching_brackets_is by lia.
  rewrite (before_first_filter 91 62) by lia.
  rewrite (before_first_filter 40 93) by lia.
  rewrite (before_first_filter 40 62) by lia.
  now rewrite before_first_thrice, filter_thrice.
Qed.

(** X3: what [_cleanup_symbol] returns for every name: the part of the
    name before its first closing bracket (of any of the three kinds),
    without the opening brackets in it, stripped of the colons at both
    ends.  Text inside a bracket group is kept and text after the first
    closing bracket is lost. *)
Theorem cleanup_symbol_closed_form s :
  _cleanup_symbol s
  = strip_chars (py ":")
      (List.filter (fun c => negb (is_open_bracket c)) (before_any is_close_bracket s)).
Proof. apply cleanup_symbol_form. Qed.

Section Strip.

Variable p : char -> bool.

Lemma lstrip_by_fix s : (forall c, head s = Some c -> p c = false) -> lstrip_by p s = s.
Proof.
  destruct s as [|c s]; [reflexivity|]. intros Hc. cbn [lstrip_by].
  now rewrite (Hc c eq_refl).
Qed.

Lemma lstrip_by_head s c : head (lstrip_by p s) = Some c -> p c = false.
Proof.
  induction s as [|a s IH]; [discriminate|]. cbn [lstrip_by].
  destruct (p a) eqn:E; [exact IH|]. now intros [= <-].
Qed.

Lemma lstrip_by_split s : exists k, s = k ++ lstrip_by p s.
Proof.
  induction s as [|a s [k IH]]; [now exists []|]. cbn [lstrip_by].
  destruct (p a); [|now exists []]. exists (a :: k). cbn [app]. now rewrite <- IH.
Qed.

Lemma strip_by_ends s :
  (forall c, head (strip_by p s) = Some c -> p c = false)
  /\ (forall c, head (rev (strip_by p s)) = Some c -> p c = false).
Proof.
  unfold strip_by, rstrip_by. set (t := lstrip_by p s). split.
  - destruct (lstrip_by_split (rev t)) as [k Hk].
    apply (f_equal (@rev _)) in Hk. rewrite rev_involutive, rev_app_distr in Hk.
    intros c Hc. apply (lstrip_by_head s). fold t. rewrite Hk.
    destruct (rev (lstrip_by p (rev t))); [discriminate|exact Hc].
  - rewrite rev_involutive. apply lstrip_by_head.
Qed.

Lemma strip_by_fix s :
  (forall c, head s = Some c -> p c = false) ->
  (forall c, head (rev s) = Some c -> p c = false) ->
  strip_by p s = s.
Proof.
  intros Hh Hl. unfold strip_by, rstrip_by.
  rewrite (lstrip_by_fix s Hh), (lstrip_by_fix (rev s) Hl). apply rev_involutive.
Qed.

Lemma strip_by_In s c : In c (strip_by p s) -> In c s.
Proof.
  assert (forall t, In c (lstrip_by p t) -> In c t) as Hl.
  { intros t. destruct (lstrip_by_split t) as [k Hk]. intros Hin.
    rewrite Hk. apply in_or_app. now right. }
  unfold strip_by, rstrip_by. intros Hin.
  apply in_rev, Hl, in_rev in Hin. now apply Hl.
Qed.

End Strip.

Lemma before_any_fix p s : (forall c, In c s -> p c = false) -> before_any p s = s.
Proof.
  induction s as [|c s IH]; [reflexivity|]. intros Hp. cbn [before_any].
  rewrite (Hp c) by now left. f_equal. apply IH. intros c' Hc'. apply Hp. now right.
Qed.

Lemma before_any_In p s c : In c (before_any p s) -> In c s /\ p c = false.
Proof.
  induction s as [|a s IH]; [intros []|]. cbn [before_any].
  destruct (p a) eqn:E; [intros []|].
  intros [<-|Hc]; [split; [now left|assumption]|].
  destruct (IH Hc). split; [now right|assumption].
Qed.

(** The characters of a simplified name. *)
Lemma cleanup_symbol_chars s :
  (forall c, In c (_cleanup_symbol s) ->
             In c s /\ is_open_bracket c = false /\ is_close_bracket c = false)
  /\ startswith (py ":") (_cleanup_symbol s) = false
  /\ startswith (py ":") (rev (_cleanup_symbol s)) = false.
Proof.
  rewrite cleanup_symbol_form. unfold strip_chars.
  set (p := fun c : char => existsb (Z.eqb c) (py ":")).
  set (t := List.filter _ _).
  destruct (strip_by_ends p t) as [Hh Hl].
  assert (forall u, (forall c, head u = Some c -> p c = false) ->
                    startswith (py ":") u = false) as Hstart.
  { intros [|c u] Hu; [reflexivity|]. specialize (Hu c eq_refl).
    unfold p in Hu. cbn in Hu. cbn [startswith py List.map list_ascii_of_string].
    cbn. rewrite Z.eqb_sym. now destruct (c =? 58). }
  split; [|split; apply Hstart; assumption].
  intros c Hc. apply strip_by_In in Hc. unfold t in Hc.
  apply filter_In in Hc as [Hc Hopen]. apply before_any_In in Hc as [Hc Hclose].
  repeat split; [assumption| |assumption]. now destruct (is_open_bracket c).
Qed.

(** X4: a simplified name holds only characters of the raw name, none of
    them one of the six bracket characters, and neither starts nor ends
    with a colon. *)
Theorem cleanup_symbol_output s :
  (forall c, In c (_cleanup_symbol s) ->
             In c s /\ is_open_bracket c = false /\ is_close_bracket c = false)
  /\ startswith (py ":") (_cleanup_symbol s) = false
  /\ startswith (py ":") (rev (_cleanup_symbol s)) = false.
Proof. apply cleanup_symbol_chars. Qed.

(** X5: simplifying a simplified name changes nothing. *)
Theorem cleanup_symbol_idempotent s :
  _cleanup_symbol (_cleanup_symbol s) = _cleanup_symbol s.
Proof.
  destruct (cleanup_symbol_chars s) as (Hin & Hh & Hl).
  rewrite (cleanup_symbol_form (_cleanup_symbol s)).
  rewrite before_any_fix by (intros c Hc; now apply Hin in Hc).
  assert (List.filter (fun c => negb (is_open_bracket c)) (_cleanup_symbol s)
          = _cleanup_symbol s) as ->.
  { apply forallb_filter_id, forallb_forall. intros c Hc.
    apply Hin in Hc as (_ & -> & _). reflexivity. }
  assert (forall u c, startswith (py ":") u = false -> head u = Some c ->
                      existsb (Z.eqb c) (py ":") = false) as Hp.
  { intros [|a u] c Hu Hc; cbn in Hc; [discriminate|]. injection Hc as <-.
    change (py ":") with [58] in *. cbn [startswith] in Hu. cbn [existsb].
    apply andb_false_iff in Hu as [Hu|Hu]; [|discriminate Hu].
    rewrite (Z.eqb_sym a 58), Hu. reflexivity. }
  apply strip_by_fix; intros c; now apply Hp.
Qed.

(** X6: the cache of a [Symbol] object: a call of [simplified_symbol]
    returns the simplified name of the symbol, leaves the address and the
    name untouched, keeps the cache right, and a second call returns the
    same string without changing the object again. *)
Theorem simplified_symbol_cache self :
  cache_ok self ->
  let '(name, self') := simplified_symbol_cached self in
  name = simplified_symbol {| address := so_address self; symbol := so_symbol self |}
  /\ so_address self' = so_address self /\ so_symbol self' = so_symbol self
  /\ cache_ok self'
  /\ simplified_symbol_cached self' = (name, self').
Proof.
  unfold cache_ok, simplified_symbol_cached, simplified_symbol. cbn [symbol].
  destruct self as [a sy [c|]]; cbn [_cleaned_symbol so_symbol so_address].
  - intros [H|[= ->]]; [discriminate|]. repeat split; auto.
  - intros _. repeat split; auto.
Qed.

Lemma simplified_symbol_cache_witness :
  let '(name, self') := simplified_symbol_cached (Symbol_init 4096 (py "ns::f(int)")) in
  name = simplified_symbol
           {| address := so_address (Symbol_init 4096 (py "ns::f(int)"));
              symbol := so_symbol (Symbol_init 4096 (py "ns::f(int)")) |}
  /\ so_address self' = so_address (Symbol_init 4096 (py "ns::f(int)"))
  /\ so_symbol self' = so_symbol (Symbol_init 4096 (py "ns::f(int)"))
  /\ cache_ok self'
  /\ simplified_symbol_cached self' = (name, self').
Proof.
  apply (simplified_symbol_cache (Symbol_init 4096 (py "ns::f(int)"))).
  left. reflexivity.
Defined.

(** ** The symbol table of an object *)

Lemma insert_by_address_perm s l : Permutation (insert_by_address s l) (s :: l).
Proof.
  induction l as [|t l IH]; [reflexivity|]. cbn [insert_by_address].
  destruct (address s <=? address t); [reflexivity|].
  rewrite IH. apply perm_swap.
Qed.

Lemma insert_by_address_stable a s l :
  List.filter (fun x => address x =? a) (insert_by_address s l)
  = List.filter (fun x => address x =? a) (s :: l).
Proof.
  induction l as [|t l IH]; [reflexivity|]. cbn [insert_by_address].
  destruct (address s <=? address t) eqn:E; [reflexivity|].
  apply Z.leb_gt in E. cbn [List.filter] in IH |- *. rewrite IH.
  destruct (Z.eqb_spec (address s) a) as [Hs|Hs]; destruct (Z.eqb_spec (address t) a) as [Ht|Ht];
    try reflexivity.
  lia.
Qed.

(** X7: the sort of the symbol rows ([sorted(result, key=address)]): the
    table is in ascending order of address, holds the same rows, and rows
    with the same address stay in the order nm printed them, so the
    "rightmost entry" of a group of equal addresses is the last one
    printed. *)
Theorem symbol_table_sorted_stable l :
  StronglySorted Z.le (List.map address (sorted_by_address l))
  /\ Permutation (sorted_by_address l) l
  /\ forall a, List.filter (fun x => address x =? a) (sorted_by_address l)
               = List.filter (fun x => address x =? a) l.
Proof.
  split; [apply sorted_by_address_sorted|]. unfold sorted_by_address. split.
  - induction l as [|s l IH]; [reflexivity|]. cbn [foldr].
    rewrite insert_by_address_perm. now constructor.
  - intros a. induction l as [|s l IH]; [reflexivity|]. cbn [foldr].
    rewrite insert_by_address_stable. cbn [List.filter]. now rewrite IH.
Qed.

(** ** The regions built from the memory map *)

Section Regions.

Context `{Host}.

Variable executable : Path.
Variable executable_only : bool.

Lemma init_line_region line obj :
  init_line executable executable_only line = Ok (Some obj) ->
  region_ok executable executable_only obj.
Proof.
  intros Hl. pose proof (init_line_wf _ _ _ _ Hl) as Hwf. revert Hl.
  unfold init_line. intros Hl.
  destruct (startswith (py "build=") line); [discriminate|].
  destruct (index (split_ws (strip line)) 0); cbn [mbind result_bind] in Hl; [|discriminate].
  destruct (split_ws (strip line)) as [|? [|perms [|off [|? [|? [|path [|? ?]]]]]]];
    try discriminate.
  destruct (negb (contains_char 120 perms)); [discriminate|].
  cbv zeta in Hl.
  destruct (bool_decide (path_name (mkPath path) = path_name executable)) eqn:Eexe;
    cbn [negb andb] in Hl.
  - rewrite andb_false_r in Hl.
    destruct (negb (path_exists executable) || negb (access_R_OK executable)) eqn:Efs;
      [discriminate|].
    apply orb_false_iff in Efs as [Ee Ea]. apply negb_false_iff in Ee, Ea.
    repeat match type of Hl with
           | context [mbind _ ?m] =>
               destruct m; cbn [mbind result_bind] in Hl; [|discriminate]
           end.
    injection Hl as <-. unfold region_ok. cbn [obj_path is_executable]. auto.
  - rewrite andb_true_r in Hl. destruct executable_only eqn:Eonly; [discriminate|].
    destruct (negb (path_exists (mkPath path)) || negb (access_R_OK (mkPath path))) eqn:Efs;
      [discriminate|].
    apply orb_false_iff in Efs as [Ee Ea]. apply negb_false_iff in Ee, Ea.
    repeat match type of Hl with
           | context [mbind _ ?m] =>
               destruct m; cbn [mbind result_bind] in Hl; [|discriminate]
           end.
    injection Hl as <-. unfold region_ok. cbn [obj_path is_executable].
    repeat split; auto; try congruence; apply Hwf.
Qed.

(** X8: every region of a resolver that [__init__] returns is backed by
    a file that exists and is readable; a region flagged as the
    executable is backed by the path given by the caller; with
    [executable_only] every region is the executable; and each region's
    address list is sorted and in step with its symbols. *)
Theorem init_regions_ok proc_mapped_objects self :
  SymbolResolver_init executable proc_mapped_objects executable_only = Ok self ->
  Forall (region_ok executable executable_only) (_objects self).
Proof.
  unfold SymbolResolver_init. intros Hinit.
  destruct (for_append _ _ _) as [objs|] eqn:E; cbn [mbind result_bind] in Hinit;
    [|discriminate].
  injection Hinit as <-. cbn [_objects].
  eapply for_append_Forall; [|constructor|exact E].
  intros line obj. apply init_line_region.
Qed.

Lemma lstrip_by_all (p : char -> bool) s :
  (forall c, In c s -> p c = true) -> lstrip_by p s = [].
Proof.
  induction s as [|c s IH]; [reflexivity|]. intros Hp. cbn [lstrip_by].
  rewrite (Hp c) by now left. apply IH. intros c' Hc'. apply Hp. now right.
Qed.

(** X9: a memory map that is empty or holds only whitespace gives a
    resolver without regions, and that resolver resolves no counter: the
    table of [resolve_symbols_batch] is empty. *)
Theorem blank_map_no_regions proc_mapped_objects (pcs : gset Z)
    (simplify_symbol annotate_libname : bool) :
  (forall c, In c proc_mapped_objects -> is_space c = true) ->
  SymbolResolver_init executable proc_mapped_objects executable_only
  = Ok {| _objects := [] |}
  /\ resolve_symbols_batch {| _objects := [] |} pcs simplify_symbol annotate_libname = ∅.
Proof.
  intros Hws. split; [|reflexivity].
  unfold SymbolResolver_init, strip, strip_by, rstrip_by.
  rewrite (lstrip_by_all is_space proc_mapped_objects Hws). reflexivity.
Qed.

Lemma split_once_absent sep cur s :
  contains_char sep s = false -> split_once_aux sep cur s = [rev cur ++ s].
Proof.
  revert cur. induction s as [|c s IH]; intros cur Hs.
  - cbn. now rewrite app_nil_r.
  - unfold contains_char in Hs. cbn [existsb] in Hs.
    apply orb_false_iff in Hs as [Hc Hs]. cbn [split_once_aux].
    rewrite Z.eqb_sym, Hc. rewrite IH by exact Hs.
    cbn [rev]. now rewrite <- app_assoc.
Qed.

(** X10: a mapping line that passes every test of the loop (six fields,
    executable, file present and readable, symbols extracted) but whose
    first field holds no hyphen is not skipped: once its first field is
    read as a number, [addr_fileds[1]] raises [IndexError] and the
    construction of the resolver is aborted. *)
Theorem range_without_hyphen_raises line f0 perms off dev inode path syms a :
  startswith (py "build=") line = false ->
  split_ws (strip line) = [f0; perms; off; dev; inode; path] ->
  contains_char 120 perms = true ->
  let is_exe := bool_decide (path_name (mkPath path) = path_name executable) in
  let obj_path := if is_exe then executable else mkPath path in
  executable_only && negb is_exe = false ->
  path_exists obj_path = true -> access_R_OK obj_path = true ->
  _find_object_all_symbols_sorted obj_path = Ok syms ->
  contains_char 45 f0 = false -> int16 f0 = Ok a ->
  init_line executable executable_only line = Raise IndexError.
Proof.
  intros Hb Hf Hx is_exe obj_path Honly He Ha Hsyms Hhy Hint.
  unfold init_line. rewrite Hb, Hf.
  cbn [index lookup list_lookup mbind result_bind]. rewrite Hx. cbn [negb]. cbv zeta.
  fold is_exe. fold obj_path. rewrite Honly, He, Ha. cbn [negb orb].
  rewrite Hsyms. cbn [mbind result_bind].
  unfold split_once. rewrite split_once_absent by assumption.
  cbn [rev app index lookup list_lookup mbind result_bind]. rewrite Hint.
  reflexivity.
Qed.

End Regions.

Lemma init_regions_ok_witness :
  Forall (region_ok (H := demo_host) (py "/bin/app") false) (_objects demo_resolver).
Proof.
  apply (init_regions_ok (H := demo_host) (py "/bin/app") false demo_map demo_resolver).
  vm_compute. reflexivity.
Defined.

Lemma blank_map_no_regions_witness :
  SymbolResolver_init (H := demo_host) (py "/bin/app") (py "  " ++ [10]) true
  = Ok {| _objects := [] |}
  /\ resolve_symbols_batch (H := demo_host) {| _objects := [] |} {[4198400]} false false = ∅.
Proof.
  apply (blank_map_no_regions (H := demo_host) (py "/bin/app") true (py "  " ++ [10])).
  intros c [<-|[<-|[<-|[]]]]; reflexivity.
Defined.

Lemma range_without_hyphen_raises_witness :
  init_line (H := demo_host) (py "/bin/app") false
    (py "00400000 r-xp 00000000 08:01 1 /bin/app")
  = Raise IndexError.
Proof.
  apply (range_without_hyphen_raises (H := demo_host) (py "/bin/app") false
           (py "00400000 r-xp 00000000 08:01 1 /bin/app")
           (py "00400000") (py "r-xp") (py "00000000") (py "08:01") (py "1") (py "/bin/app")
           [{| address := 0x1000; symbol := py "main" |};
            {| address := 0x1100; symbol := py "helper(int)" |}] 0x400000);
    vm_compute; reflexivity.
Defined.

(** ** The table of resolved counters *)

Section BatchTable.

Context `{Host}.

Variables simplify_symbol annotate_libname : bool.

Lemma symbol_at_Some obj pc sym :
  symbol_at obj pc = Some sym -> in_region obj pc /\ sym ∈ all_symbols_sorted obj.
Proof.
  unfold symbol_at, in_region.
  destruct ((start_address obj <=? pc) && (pc <? end_address obj)) eqn:E; [|discriminate].
  apply andb_true_iff in E as [E1 E2]. apply Z.leb_le in E1. apply Z.ltb_lt in E2.
  cbv zeta. destruct (_ && _); [|discriminate].
  intros Hsym. split; [lia|]. apply list_elem_of_lookup. eauto.
Qed.

Lemma resolved_by_Some objs pc init s :
  resolved_by simplify_symbol annotate_libname objs pc init = Some s ->
  init = Some s
  \/ exists obj sym, obj ∈ objs /\ symbol_at obj pc = Some sym
                     /\ s = render simplify_symbol annotate_libname obj sym.
Proof.
  unfold resolved_by. revert init. induction objs as [|o objs IH]; intros init; cbn [fold_left].
  - now left.
  - intros Hs. apply IH in Hs as [Hs|(obj & sym & Hobj & Hsym & ->)].
    + destruct (symbol_at o pc) as [sym|] eqn:E; [|now left].
      right. exists o, sym. injection Hs as <-. repeat split; [left|assumption].
    + right. exists obj, sym. repeat split; [now right|assumption].
Qed.

Lemma loops_lookup objs (l : list Z) pc :
  fold_left
    (fun result obj => fold_left (resolve_pc simplify_symbol annotate_libname obj) l result)
    objs (∅ : gmap Z str) !! pc
  = if bool_decide (pc ∈ l)
    then resolved_by simplify_symbol annotate_libname objs pc None
    else None.
Proof.
  destruct (decide (pc ∈ l)) as [Hin|Hnin].
  - rewrite bool_decide_eq_true_2, outer_loop_lookup by assumption. now rewrite lookup_empty.
  - rewrite bool_decide_eq_false_2 by assumption.
    generalize (∅ : gmap Z str) (lookup_empty (M := gmap Z) (A := str) pc).
    induction objs as [|o objs IH]; intros m Hm; cbn [fold_left]; [assumption|].
    apply IH. rewrite inner_loop_lookup, bool_decide_eq_false_2 by assumption. exact Hm.
Qed.

(** X11: [resolve_symbols_batch] names only counters of the batch, and
    the name it gives to a counter is the rendered name of a symbol of a
    region whose address range contains the counter. *)
Theorem batch_entries_sound self (pcs : gset Z) pc s :
  resolve_symbols_batch self pcs simplify_symbol annotate_libname !! pc = Some s ->
  pc ∈ pcs
  /\ exists obj sym,
       obj ∈ _objects self /\ in_region obj pc /\ sym ∈ all_symbols_sorted obj
       /\ s = render simplify_symbol annotate_libname obj sym.
Proof.
  unfold resolve_symbols_batch. rewrite loops_lookup.
  destruct (decide (pc ∈ elements pcs)) as [Hin|Hnin].
  - rewrite bool_decide_eq_true_2 by assumption. intros Hs.
    split; [now apply elem_of_elements|].
    apply resolved_by_Some in Hs as [Hs|(obj & sym & Hobj & Hsym & ->)]; [discriminate|].
    apply symbol_at_Some in Hsym as [Hreg Hsym]. eauto 10.
  - now rewrite bool_decide_eq_false_2.
Qed.

(** X12: the table does not depend on the order in which the set of
    counters is visited: the two loops run over any enumeration of the
    set, with or without repetitions, give the table of
    [resolve_symbols_batch]. *)
Theorem batch_order_irrelevant self (pcs : gset Z) (l : list Z) :
  (forall pc, pc ∈ l <-> pc ∈ pcs) ->
  fold_left
    (fun result obj => fold_left (resolve_pc simplify_symbol annotate_libname obj) l result)
    (_objects self) ∅
  = resolve_symbols_batch self pcs simplify_symbol annotate_libname.
Proof.
  intros Hl. apply map_eq. intros pc. unfold resolve_symbols_batch.
  rewrite !loops_lookup.
  destruct (decide (pc ∈ pcs)) as [Hin|Hnin].
  - rewrite !bool_decide_eq_true_2; [reflexivity|now apply elem_of_elements|now apply Hl].
  - rewrite !bool_decide_eq_false_2; [reflexivity| |].
    + now rewrite elem_of_elements.
    + now rewrite Hl.
Qed.

End BatchTable.

Lemma batch_entries_sound_witness :
  4198656 ∈ ({[4198656]} : gset Z)
  /\ exists obj sym,
       obj ∈ _objects demo_resolver /\ in_region obj 4198656
       /\ sym ∈ all_symbols_sorted obj
       /\ py "helper(int)" = render false false obj sym.
Proof.
  apply (batch_entries_sound (H := demo_host) false false demo_resolver {[4198656]}).
  vm_compute. reflexivity.
Defined.

Lemma batch_order_irrelevant_witness :
  fold_left
    (fun result obj => fold_left (resolve_pc (H := demo_host) false false obj)
                         [4198656; 4194304; 4198656] result)
    (_objects demo_resolver) ∅
  = resolve_symbols_batch demo_resolver {[4194304; 4198656]} false false.
Proof.
  apply (batch_order_irrelevant (H := demo_host) false false demo_resolver
           {[4194304; 4198656]} [4198656; 4194304; 4198656]).
  intros pc. rewrite !elem_of_cons, elem_of_nil, elem_of_union, !elem_of_singleton. tauto.
Defined.

(** ** The table of folded stacks *)

Lemma collect_stack_lookup_full (period : Z) (to_microsecond : bool) (stacks : gmap str Z)
    (st : Stacktrace) (key : str) :
  collect_stack period to_microsecond stacks st !! key
  = if has_key key st
    then Some (default 0 (stacks !! key) + contribution period to_microsecond key st)
    else stacks !! key.
Proof.
  unfold collect_stack, has_key, contribution.
  destruct (symbols st) as [[|s l]|]; try reflexivity.
  fold (sample_weight period to_microsecond st).
  destruct (decide (fold_key (s :: l) = key)) as [<-|Hne].
  - rewrite lookup_insert_eq, bool_decide_eq_true_2 by reflexivity. reflexivity.
  - rewrite lookup_insert_ne, bool_decide_eq_false_2 by assumption. reflexivity.
Qed.

Lemma contribution_no_key (period : Z) (to_microsecond : bool) (key : str) (st : Stacktrace) :
  has_key key st = false -> contribution period to_microsecond key st = 0.
Proof.
  unfold has_key, contribution. destruct (symbols st) as [[|s l]|]; try reflexivity.
  now intros ->.
Qed.

Lemma sum_no_key (period : Z) (to_microsecond : bool) (key : str) (sts : list Stacktrace) :
  existsb (has_key key) sts = false ->
  sum_list (List.map (contribution period to_microsecond key) sts) = 0.
Proof.
  unfold sum_list. induction sts as [|st sts IH]; [reflexivity|].
  cbn [existsb List.map foldr]. intros E. apply orb_false_iff in E as [E1 E2].
  rewrite (contribution_no_key _ _ _ _ E1), IH by assumption. reflexivity.
Qed.

Lemma collect_lookup_full (period : Z) (to_microsecond : bool) (sts : list Stacktrace)
    (stacks : gmap str Z) (key : str) :
  fold_left (collect_stack period to_microsecond) sts stacks !! key
  = if existsb (has_key key) sts
    then Some (default 0 (stacks !! key)
               + sum_list (List.map (contribution period to_microsecond key) sts))
    else stacks !! key.
Proof.
  revert stacks. induction sts as [|st sts IH]; intros stacks; [reflexivity|].
  cbn [fold_left existsb List.map].
  pose proof (sum_no_key period to_microsecond key sts) as Hzero.
  unfold sum_list in *. cbn [foldr].
  rewrite IH, collect_stack_lookup_full.
  destruct (has_key key st) eqn:E; cbn [orb default]; unfold id.
  - destruct (existsb (has_key key) sts); f_equal; [lia|].
    rewrite Hzero by reflexivity. lia.
  - rewrite (contribution_no_key _ _ _ _ E).
    destruct (existsb (has_key key) sts); [f_equal; lia|reflexivity].
Qed.

Lemma table_total_add (stacks : gmap str Z) (key : str) (w : Z) :
  table_total (<[key := default 0 (stacks !! key) + w]> stacks) = table_total stacks + w.
Proof.
  unfold table_total.
  assert (forall (m : gmap str Z) v, m !! key = None ->
            map_fold (fun _ v acc => v + acc) 0 (<[key := v]> m)
            = v + map_fold (fun _ v acc => v + acc) 0 m) as Hins.
  { intros m v Hm. apply (map_fold_insert_L (fun _ v acc => v + acc)); [|assumption].
    intros; lia. }
  destruct (stacks !! key) as [v|] eqn:E; cbn [default].
  - pose proof (Hins (delete key stacks) v (lookup_delete_eq _ _)) as Hv.
    rewrite (insert_delete_id stacks key v E) in Hv.
    rewrite <- (insert_delete_eq stacks key (v + w)), Hins by apply lookup_delete_eq. lia.
  - rewrite Hins by assumption. lia.
Qed.

Lemma collect_total_weight (period : Z) (to_microsecond : bool) (sts : list Stacktrace)
    (stacks : gmap str Z) :
  table_total (fold_left (collect_stack period to_microsecond) sts stacks)
  = table_total stacks
    + sum_list (List.map (fun st => match symbols st with
                                    | Some (_ :: _) => sample_weight period to_microsecond st
                                    | _ => 0
                                    end) sts).
Proof.
  revert stacks. unfold sum_list.
  induction sts as [|st sts IH]; intros stacks; cbn [fold_left List.map foldr]; [lia|].
  rewrite IH. unfold collect_stack.
  destruct (symbols st) as [[|s l]|]; try lia.
  fold (sample_weight period to_microsecond st). rewrite table_total_add. lia.
Qed.

Lemma existsb_perm {A} (f : A -> bool) l l' :
  Permutation l l' -> existsb f l = existsb f l'.
Proof.
  induction 1 as [|x l l' _ IH|x y l|l l' l'' _ IH1 _ IH2]; cbn [existsb].
  - reflexivity.
  - now rewrite IH.
  - now rewrite !orb_assoc, (orb_comm (f y)).
  - congruence.
Qed.

Lemma sum_list_perm l l' : Permutation l l' -> sum_list l = sum_list l'.
Proof.
  unfold sum_list.
  induction 1 as [|x l l' _ IH|x y l|l l' l'' _ IH1 _ IH2]; cbn [foldr]; lia.
Qed.

Section FoldedTable.

Context `{Host}.

Variable resolver : SymbolResolver.
Variables simplify_symbol annotate_libname to_microsecond : bool.

(** The table of [process], read at a key. *)
Lemma process_stacks_lookup pr key :
  process_stacks resolver pr simplify_symbol annotate_libname to_microsecond !! key
  = if existsb (has_key key) (resolved_samples resolver simplify_symbol annotate_libname pr)
    then Some (sum_list
                 (List.map (contribution (sampling_period_in_us pr) to_microsecond key)
                    (resolved_samples resolver simplify_symbol annotate_libname pr)))
    else None.
Proof.
  unfold process_stacks, resolved_samples. cbv zeta.
  rewrite collect_lookup_full, lookup_empty. cbn [default].
  now destruct (existsb _ _).
Qed.

(** X13: the table [process] builds has an entry for a key exactly when a
    sample with at least one counter folds to that key, and the entry is
    the sum of the weights of all those samples (counts, or counts times
    the sampling period). *)
Theorem table_entry_is_sum pr key :
  process_stacks resolver pr simplify_symbol annotate_libname to_microsecond !! key
  = if existsb (has_key key) (resolved_samples resolver simplify_symbol annotate_libname pr)
    then Some (sum_list
                 (List.map (contribution (sampling_period_in_us pr) to_microsecond key)
                    (resolved_samples resolver simplify_symbol annotate_libname pr)))
    else None.
Proof. apply process_stacks_lookup. Qed.

(** X14: no weight is lost or invented by the folding: the entries of the
    table add up to the total weight of the samples that have at least
    one counter, whatever their symbols are. *)
Theorem table_total_is_sample_weight pr :
  table_total (process_stacks resolver pr simplify_symbol annotate_libname to_microsecond)
  = sum_list
      (List.map (fun st => match pcs st with
                           | [] => 0
                           | _ => sample_weight (sampling_period_in_us pr) to_microsecond st
                           end)
         (stacktraces pr)).
Proof.
  unfold process_stacks. cbv zeta. rewrite collect_total_weight.
  unfold table_total at 1. rewrite map_fold_empty, map_map, Z.add_0_l.
  f_equal. apply map_ext. intros st. unfold assign_symbols, sample_weight.
  cbn [symbols sample_count]. now destruct (pcs st).
Qed.

Lemma all_pcs_perm (sts sts' : list Stacktrace) :
  Permutation sts sts' ->
  (list_to_set (concat (List.map pcs sts)) : gset Z)
  = list_to_set (concat (List.map pcs sts')).
Proof.
  induction 1 as [|st l l' _ IH|st st' l|l l' l'' _ IH1 _ IH2]; cbn [List.map concat].
  - reflexivity.
  - rewrite !list_to_set_app_L. now rewrite IH.
  - rewrite !list_to_set_app_L, !(assoc_L (∪)).
    now rewrite (comm_L (∪) (list_to_set (pcs st'))).
  - congruence.
Qed.

(** X15: the order of the samples in the profile does not matter for the
    table: two profiles with the same period and the same samples in a
    different order give the same table. *)
Theorem sample_order_irrelevant period text sts sts' :
  Permutation sts sts' ->
  process_stacks resolver
    {| sampling_period_in_us := period; proc_mapped_objects := text; stacktraces := sts |}
    simplify_symbol annotate_libname to_microsecond
  = process_stacks resolver
      {| sampling_period_in_us := period; proc_mapped_objects := text; stacktraces := sts' |}
      simplify_symbol annotate_libname to_microsecond.
Proof.
  intros Hperm. apply map_eq. intros key. rewrite !process_stacks_lookup.
  unfold resolved_samples. cbn [stacktraces sampling_period_in_us].
  rewrite (all_pcs_perm sts sts' Hperm).
  set (m := resolve_symbols_batch _ _ _ _).
  assert (Permutation (List.map (assign_symbols m) sts) (List.map (assign_symbols m) sts'))
    as Hp by now apply Permutation_map.
  rewrite (existsb_perm _ _ _ Hp).
  rewrite (sum_list_perm _ _ (Permutation_map _ Hp)). reflexivity.
Qed.

End FoldedTable.

Lemma sample_order_irrelevant_witness :
  process_stacks demo_resolver
    {| sampling_period_in_us := 1000; proc_mapped_objects := demo_map;
       stacktraces := [sample 5 [0x401104]; sample 2 [0x401010]] |}
    false false true
  = process_stacks demo_resolver
      {| sampling_period_in_us := 1000; proc_mapped_objects := demo_map;
         stacktraces := [sample 2 [0x401010]; sample 5 [0x401104]] |}
      false false true.
Proof.
  apply (sample_order_irrelevant (H := demo_host) demo_resolver false false true 1000 demo_map).
  apply perm_swap.
Defined.

(** ** The converter object *)

Section Converter.

Context `{Host}.

(** X16: after a successful [process] the converter holds a resolver; a
    second call with the same options returns the same table and leaves
    the converter as it is, and a call with any other options uses the
    held resolver: the memory map is not turned into regions again. *)
Theorem process_keeps_resolver self simplify_symbol annotate_libname to_microsecond d self' :
  process self simplify_symbol annotate_libname to_microsecond = Ok (d, self') ->
  (exists resolver f pr,
     symbol_resolver self' = Some resolver
     /\ open_rb (_profile_result_path self) = Ok f
     /\ _parse_profiler_result native_order slots_fit f = Ok pr
     /\ forall s a us,
          process self' s a us
          = Ok ({| fg_stacks := process_stacks resolver pr s a us;
                   _default_flamegraph_args := if us then [py "--countname"; py "us"] else [] |},
                self'))
  /\ process self' simplify_symbol annotate_libname to_microsecond = Ok (d, self').
Proof.
  unfold process. intros Hp.
  destruct (open_rb (_profile_result_path self)) as [f|] eqn:Ef;
    cbn [mbind result_bind] in Hp; [|discriminate].
  destruct (_parse_profiler_result native_order slots_fit f) as [pr|] eqn:Epr;
    cbn [mbind result_bind] in Hp; [|discriminate].
  match type of Hp with
  | context [mbind _ ?m] =>
      destruct m as [resolver|] eqn:Er; cbn [mbind result_bind] in Hp; [|discriminate]
  end.
  injection Hp as <- <-.
  cbn [symbol_resolver _profile_result_path _executable_path executable_only].
  rewrite Ef. cbn [mbind result_bind]. rewrite Epr. cbn [mbind result_bind].
  split; [|reflexivity].
  exists resolver, f, pr. repeat split; auto.
Qed.

End Converter.

Lemma process_keeps_resolver_witness :
  match process demo_converter false false true with
  | Ok (d, self') => process self' false false true = Ok (d, self')
  | Raise _ => False
  end.
Proof.
  destruct (process demo_converter false false true) as [[d self']|e] eqn:E.
  - exact (proj2 (process_keeps_resolver (H := demo_profile_host) demo_converter
                    false false true d self' E)).
  - vm_compute in E. discriminate E.
Defined.

(** ** The dict behind the table and the output text *)

Lemma dict_add_to_map (key : str) (w : Z) (d : list (str * Z)) :
  (list_to_map (dict_add key w d) : gmap str Z)
  = <[key := default 0 ((list_to_map d : gmap str Z) !! key) + w]> (list_to_map d).
Proof.
  induction d as [|[k v] d IH]; [reflexivity|].
  cbn [dict_add]. destruct (decide (k = key)) as [->|Hne].
  - rewrite bool_decide_eq_true_2 by reflexivity. cbn [list_to_map foldr uncurry].
    rewrite lookup_insert_eq. cbn [default]. now rewrite insert_insert_eq.
  - rewrite bool_decide_eq_false_2 by assumption. cbn [list_to_map foldr uncurry].
    fold (list_to_map (M := gmap str Z) (dict_add key w d)).
    fold (list_to_map (M := gmap str Z) d).
    rewrite IH, lookup_insert_ne by assumption. now apply insert_insert_ne.
Qed.

Lemma dict_add_keys (key : str) (w : Z) (d : list (str * Z)) :
  (dict_add key w d).*1 = if bool_decide (key ∈ d.*1) then d.*1 else d.*1 ++ [key].
Proof.
  induction d as [|[k v] d IH]; [reflexivity|].
  cbn [dict_add]. destruct (decide (k = key)) as [->|Hne].
  - rewrite bool_decide_eq_true_2 by reflexivity. cbn [fmap list_fmap fst].
    now rewrite (bool_decide_eq_true_2 (key ∈ key :: _)) by left.
  - rewrite bool_decide_eq_false_2 by assumption. cbn [fmap list_fmap fst].
    fold (fmap (M := list) (@fst str Z) (dict_add key w d)).
    fold (fmap (M := list) (@fst str Z) d). rewrite IH.
    destruct (decide (key ∈ d.*1)) as [Hin|Hnin].
    + rewrite !bool_decide_eq_true_2; [reflexivity|now right|assumption].
    + rewrite !bool_decide_eq_false_2; [reflexivity| |assumption].
      intros Hin. apply elem_of_cons in Hin as [?|?]; congruence.
Qed.

Lemma dict_add_NoDup (key : str) (w : Z) (d : list (str * Z)) :
  NoDup d.*1 -> NoDup (dict_add key w d).*1.
Proof.
  intros Hd. rewrite dict_add_keys.
  destruct (decide (key ∈ d.*1)) as [Hin|Hnin].
  - now rewrite bool_decide_eq_true_2.
  - rewrite bool_decide_eq_false_2 by assumption.
    apply NoDup_app. repeat split; [assumption| |apply NoDup_singleton].
    intros x Hx Hx'. apply list_elem_of_singleton in Hx'. congruence.
Qed.

(** X17: the dict of the source and the finite map of this development
    agree: filled by the same samples, the insertion-ordered dict has the
    entries of the map, and every key once. *)
Theorem dict_refines_table (period : Z) (to_microsecond : bool) (sts : list Stacktrace) :
  let items := fold_left (collect_stack_items period to_microsecond) sts [] in
  (list_to_map items : gmap str Z)
  = fold_left (collect_stack period to_microsecond) sts ∅
  /\ NoDup items.*1.
Proof.
  cbv zeta.
  enough (forall (d : list (str * Z)),
             NoDup d.*1 ->
             (list_to_map (fold_left (collect_stack_items period to_microsecond) sts d)
              : gmap str Z)
             = fold_left (collect_stack period to_microsecond) sts (list_to_map d)
             /\ NoDup (fold_left (collect_stack_items period to_microsecond) sts d).*1)
    as Hgen by (apply (Hgen []); constructor).
  induction sts as [|st sts IH]; intros d Hd; cbn [fold_left]; [now split|].
  assert (NoDup (collect_stack_items period to_microsecond d st).*1
          /\ (list_to_map (collect_stack_items period to_microsecond d st) : gmap str Z)
             = collect_stack period to_microsecond (list_to_map d) st) as [Hnd Hmap].
  { unfold collect_stack_items, collect_stack.
    destruct (symbols st) as [[|s l]|]; try (now split).
    split; [now apply dict_add_NoDup|apply dict_add_to_map]. }
  destruct (IH _ Hnd) as [IH1 IH2]. split; [|assumption]. now rewrite IH1, Hmap.
Qed.

Lemma join_lines (lines : list str) :
  lines <> [] -> join [10] lines ++ [10] = concat (List.map (fun l => l ++ [10]) lines).
Proof.
  induction lines as [|l lines IH]; [congruence|]. intros _.
  destruct lines as [|l' lines].
  - cbn. now rewrite app_nil_r.
  - change (join [10] (l :: l' :: lines)) with (l ++ [10] ++ join [10] (l' :: lines)).
    rewrite <- !app_assoc.
    transitivity (l ++ [10] ++ concat (List.map (fun l => l ++ [10]) (l' :: lines))).
    + do 2 f_equal. apply IH. discriminate.
    + cbn [List.map concat]. rewrite <- !app_assoc. reflexivity.
Qed.

(** X18: the text written for the flame graph: each entry of the table
    is one line, its key, a space, the weight in decimal and a newline, in
    the order of the dict; for a table without entries the text is a
    single newline, not the empty text. *)
Theorem data_is_lines (items : list (str * Z)) :
  FlamegraphData_data items
  = match items with
    | [] => [10]
    | _ => concat (List.map (fun item => fst item ++ [32] ++ str_of_int (snd item) ++ [10])
                     items)
    end.
Proof.
  unfold FlamegraphData_data. destruct items as [|i items]; [reflexivity|].
  rewrite join_lines by discriminate. rewrite map_map. f_equal.
  apply map_ext. intros [s c]. unfold data_line. cbn [fst snd].
  now rewrite <- !app_assoc.
Qed.

(** ** The lines of the nm output *)

Lemma lstrip_by_app_all (p : char -> bool) ws s :
  (forall c, In c ws -> p c = true) -> lstrip_by p (ws ++ s) = lstrip_by p s.
Proof.
  induction ws as [|c ws IH]; [reflexivity|]. intros Hws. cbn [app lstrip_by].
  rewrite (Hws c) by now left. apply IH. intros c' Hc'. apply Hws. now right.
Qed.

Lemma take_field_app f c rest :
  (forall x, In x f -> is_space x = false) -> is_space c = true ->
  take_field (f ++ c :: rest) = (f, c :: rest).
Proof.
  intros Hf Hc. induction f as [|x f IH]; cbn [app take_field].
  - now rewrite Hc.
  - rewrite (Hf x) by now left. rewrite IH; [reflexivity|].
    intros y Hy. apply Hf. now right.
Qed.

Lemma split_ws_max_lstrip n s s' :
  lstrip_by is_space s = lstrip_by is_space s' -> split_ws_max n s = split_ws_max n s'.
Proof. intros E. destruct n; cbn [split_ws_max]; now rewrite E. Qed.

Lemma split_ws_max_field n f c rest :
  f <> [] -> (forall x, In x f -> is_space x = false) -> is_space c = true ->
  split_ws_max (S n) (f ++ c :: rest) = f :: split_ws_max n (c :: rest).
Proof.
  intros Hne Hf Hc. destruct f as [|x f]; [congruence|].
  pose proof (take_field_app (x :: f) c rest Hf Hc) as Htake.
  cbn [split_ws_max]. rewrite lstrip_by_fix by (intros y [= <-]; apply Hf; now left).
  cbn [app] in Htake |- *. rewrite Htake. reflexivity.
Qed.

Section NmLines.

Context `{Host}.

(** X19: a line of the nm output made of an address, a type letter and a
    name, separated by whitespace, gives the symbol with that address and
    the whole name: blanks inside the name (as in demangled C++ names) do
    not split it. *)
Theorem nm_line_keeps_name f0 ws1 f1 ws2 name a :
  f0 <> [] -> (forall c, In c f0 -> is_space c = false) ->
  f1 <> [] -> (forall c, In c f1 -> is_space c = false) ->
  ws1 <> [] -> (forall c, In c ws1 -> is_space c = true) ->
  ws2 <> [] -> (forall c, In c ws2 -> is_space c = true) ->
  name <> [] -> strip name = name ->
  int16 f0 = Ok a ->
  nm_line (f0 ++ ws1 ++ f1 ++ ws2 ++ name) = Ok (Some {| address := a; symbol := name |}).
Proof.
  intros Hf0 Hf0s Hf1 Hf1s Hw1 Hw1s Hw2 Hw2s Hname Hstrip Hint.
  destruct (strip_by_ends is_space name) as [Hhead Hlast].
  fold (strip name) in Hhead, Hlast. rewrite Hstrip in Hhead, Hlast.
  unfold nm_line.
  assert (rstrip_by is_space (f0 ++ ws1 ++ f1 ++ ws2 ++ name)
          = f0 ++ ws1 ++ f1 ++ ws2 ++ name) as ->.
  { unfold rstrip_by. rewrite lstrip_by_fix; [apply rev_involutive|].
    rewrite !rev_app_distr. intros c Hc. apply Hlast.
    destruct (rev name) as [|y r] eqn:E; [|exact Hc].
    apply (f_equal (@rev _)) in E. rewrite rev_involutive in E. now subst. }
  destruct ws1 as [|c1 ws1]; [congruence|].
  destruct ws2 as [|c2 ws2]; [congruence|].
  cbn [app].
  rewrite split_ws_max_field by (auto; apply Hw1s; now left).
  rewrite (split_ws_max_lstrip 1 _ (f1 ++ c2 :: ws2 ++ name))
    by (apply (lstrip_by_app_all is_space (c1 :: ws1)); assumption).
  rewrite split_ws_max_field by (auto; apply Hw2s; now left).
  rewrite (split_ws_max_lstrip 0 _ name)
    by (apply (lstrip_by_app_all is_space (c2 :: ws2)); assumption).
  cbn [split_ws_max]. rewrite (lstrip_by_fix is_space name Hhead).
  destruct name as [|n0 name]; [congruence|].
  cbn [index lookup list_lookup mbind result_bind]. rewrite Hint. reflexivity.
Qed.

End NmLines.

Lemma nm_line_keeps_name_witness :
  nm_line (H := demo_host)
    (py "0000000000001100" ++ py " " ++ py "T" ++ py " " ++ py "operator new(unsigned long)")
  = Ok (Some {| address := 0x1100; symbol := py "operator new(unsigned long)" |}).
Proof.
  apply (nm_line_keeps_name (H := demo_host) (py "0000000000001100") (py " ") (py "T") (py " ")
           (py "operator new(unsigned long)") 0x1100);
    try discriminate; try (vm_compute; reflexivity).
  - intros c Hc. vm_compute in Hc. repeat (destruct Hc as [<-|Hc]; [reflexivity|]). destruct Hc.
  - intros c Hc. vm_compute in Hc. repeat (destruct Hc as [<-|Hc]; [reflexivity|]). destruct Hc.
  - intros c Hc. vm_compute in Hc. repeat (destruct Hc as [<-|Hc]; [reflexivity|]). destruct Hc.
  - intros c Hc. vm_compute in Hc. repeat (destruct Hc as [<-|Hc]; [reflexivity|]). destruct Hc.
Defined.
